(** * syslog-ng metering core: throttle filter and statistics maintenance

    A shallow embedding of [lib/filter/filter-throttle.c] and [lib/stats.c].

    Conventions.
    - [gint] is a 32-bit and [glong]/[time_t] a 64-bit two's-complement
      integer (LP64).  A value is carried as a [Z]; every C operation is
      followed by the reduction of its result to the width of its type
      ([to_gint], [to_glong]).  Signed overflow is undefined in C, so a
      theorem about the exact value of such an expression names the
      condition under which the C expression is defined; the narrowing
      conversion [glong -> gint] is defined (modulo 2^32) and is modelled
      without any side condition.
    - The wall clock is an input: every call of [g_get_current_time] in the
      source is an explicit [GTimeVal] argument of the model.
    - Mutexes are held only inside one function body and the model is
      sequential, so lock and unlock do not appear in the state.
    - Heap objects ([ThrottleRateLimit] buckets owned by the hash table of
      a filter) live in a store indexed by locations, so that sharing
      between table entries is expressible.
    - A key of the hash table is a [const gchar *]: a value is read up to
      its first NUL byte ([c_string]), and [g_str_hash], [g_str_equal] and
      [g_strdup] see nothing after it. *)

From stdpp Require Import gmap strings list fin_maps.
From Stdlib Require Import ZArith Lia Ascii.

Local Open Scope Z_scope.

(** ** Machine integers *)

Definition wrap (bits : Z) (x : Z) : Z :=
  (x + 2 ^ (bits - 1)) mod 2 ^ bits - 2 ^ (bits - 1).

Definition min_gint : Z := - 2 ^ 31.
Definition max_gint : Z := 2 ^ 31 - 1.
Definition min_glong : Z := - 2 ^ 63.
Definition max_glong : Z := 2 ^ 63 - 1.

Definition to_gint (x : Z) : Z := wrap 32 x.
Definition to_glong (x : Z) : Z := wrap 64 x.
Definition to_time_t (x : Z) : Z := wrap 64 x.

Definition in_gint (x : Z) : Prop := min_gint <= x <= max_gint.
Definition in_glong (x : Z) : Prop := min_glong <= x <= max_glong.

Arguments wrap : simpl never.
Arguments to_gint : simpl never.
Arguments to_glong : simpl never.
Arguments to_time_t : simpl never.

(** ** GLib pieces used by the sources *)

(** [GTimeVal] of glib: [glong tv_sec; glong tv_usec]. *)
Record GTimeVal : Type := mkGTimeVal { tv_sec : Z; tv_usec : Z }.

Definition G_USEC_PER_SEC : Z := 1000000.

(** glib's [#define MIN(a, b) (((a) < (b)) ? (a) : (b))]. *)
Definition MIN (a b : Z) : Z := if a <? b then a else b.

(** Modelled from the spec: [g_time_val_diff] is defined in
    [lib/timeutils/misc.c], which is not among the sources; the spec calls
    its result the "elapsed microseconds since [last_refill]".  The
    arithmetic is done in [glong]. *)
Definition g_time_val_diff (t1 t2 : GTimeVal) : Z :=
  to_glong (to_glong (to_glong (tv_sec t1 - tv_sec t2) * G_USEC_PER_SEC)
            + to_glong (tv_usec t1 - tv_usec t2)).

(** ** Token bucket ([ThrottleRateLimit]) *)

(** [struct _ThrottleRateLimit]: [gint tokens; gint rate; GTimeVal
    last_check; GMutex *lock].  The spec's [capacity] is the field [rate]. *)
Record ThrottleRateLimit : Type := mkThrottleRateLimit {
  tokens : Z;
  rate : Z;
  last_check : GTimeVal
}.

(** [throttle_ratelimit_new]; [now] is the clock reading taken inside. *)
Definition throttle_ratelimit_new (now : GTimeVal) (rate0 : Z) : ThrottleRateLimit :=
  {| tokens := rate0; rate := rate0; last_check := now |}.

(** The local [num_new_tokens] of [throttle_ratelimit_add_new_tokens]: the
    product and the quotient are computed in [glong] (C division truncates
    towards zero), the result is stored in a [gint]. *)
Definition num_new_tokens (now : GTimeVal) (self : ThrottleRateLimit) : Z :=
  let usec_since_last_fill := g_time_val_diff now (last_check self) in
  to_gint (Z.quot (to_glong (usec_since_last_fill * rate self)) G_USEC_PER_SEC).

(** [throttle_ratelimit_add_new_tokens]: the spec's [refill(now)]. *)
Definition throttle_ratelimit_add_new_tokens (now : GTimeVal) (self : ThrottleRateLimit)
  : ThrottleRateLimit :=
  let n := num_new_tokens now self in
  if n =? 0 then self
  else {| tokens := MIN (rate self) (to_gint (tokens self + n));
          rate := rate self;
          last_check := now |}.

(** [throttle_ratelimit_try_consume_tokens]: the verdict and the bucket
    after the call. *)
Definition throttle_ratelimit_try_consume_tokens (self : ThrottleRateLimit) (num_tokens : Z)
  : bool * ThrottleRateLimit :=
  if tokens self >=? num_tokens
  then (true, {| tokens := to_gint (tokens self - num_tokens);
                 rate := rate self;
                 last_check := last_check self |})
  else (false, self).

(** [throttle_ratelimit_process_new_logs]. *)
Definition throttle_ratelimit_process_new_logs (now : GTimeVal) (self : ThrottleRateLimit)
    (num_new_logs : Z) : bool * ThrottleRateLimit :=
  throttle_ratelimit_try_consume_tokens
    (throttle_ratelimit_add_new_tokens now self) num_new_logs.

(** Operations on one bucket, and the bucket after a sequence of them. *)
Inductive bucket_op : Type :=
| OpRefill (now : GTimeVal)
| OpConsume (n : Z).

Definition bucket_step (b : ThrottleRateLimit) (op : bucket_op) : ThrottleRateLimit :=
  match op with
  | OpRefill now => throttle_ratelimit_add_new_tokens now b
  | OpConsume n => snd (throttle_ratelimit_try_consume_tokens b n)
  end.

Definition bucket_run (b : ThrottleRateLimit) (ops : list bucket_op) : ThrottleRateLimit :=
  fold_left bucket_step ops b.

(** The data-model invariant of the spec. *)
Definition token_bounds (b : ThrottleRateLimit) : Prop :=
  0 <= tokens b <= rate b.

(** ** Throttle evaluator ([FilterThrottle]) *)

(** [NVHandle] is an unsigned handle; [0] means that no key is configured. *)
Definition NVHandle : Type := N.

(** Modelled from the spec: the message representation is an external
    collaborator; the core only needs "extract a byte string value for a
    key from a record".  A record is the finite map of the values it
    carries. *)
Record LogMessage : Type := mkLogMessage { nv_values : gmap N string }.

(** Modelled from the spec: [log_msg_get_value] belongs to the message
    representation (not among the sources); an absent field "degrades to
    the empty key".  The function hands out the bytes of the value (a
    pointer and a length). *)
Definition log_msg_get_value (msg : LogMessage) (handle : NVHandle) : string :=
  default EmptyString (nv_values msg !! handle).

(** The NUL byte that ends a C string. *)
Definition NUL : Ascii.ascii := Ascii.zero.

(** A byte buffer read through a [const gchar *]: the bytes before its
    first NUL byte.  [APPEND_ZERO] puts a NUL byte after the [len] bytes of
    the value, so a value without a NUL byte is read whole, and one with a
    NUL byte is read up to it. *)
Fixpoint c_string (s : string) : string :=
  match s with
  | EmptyString => EmptyString
  | String c rest =>
      if Ascii.eqb c NUL then EmptyString else String c (c_string rest)
  end.

(** No byte of the string is NUL. *)
Fixpoint nul_free (s : string) : bool :=
  match s with
  | EmptyString => true
  | String c rest => negb (Ascii.eqb c NUL) && nul_free rest
  end.

(** [g_hash_table_lookup] on a table made with [g_str_hash] and
    [g_str_equal]: the key is compared as a C string. *)
Definition g_hash_table_lookup {V : Type} (table : gmap string V) (key : string)
  : option V :=
  table !! c_string key.

(** [g_hash_table_insert (table, g_strdup (key), value)]: [g_strdup] copies
    the key as a C string. *)
Definition g_hash_table_insert {V : Type} (table : gmap string V) (key : string)
    (value : V) : gmap string V :=
  <[c_string key := value]> table.

(** Reading [a[i]] from a C array of known contents; [None] stands for an
    access outside the array. *)
Definition array_get {A : Type} (a : list A) (i : Z) : option A :=
  if i <? 0 then None else a !! Z.to_nat i.

Module FT.
(** [struct _FilterThrottle]: [key_handle], [rate], [rate_limits] (a
    [GHashTable] from C strings to bucket pointers). *)
Record FilterThrottle : Type := mkFilterThrottle {
  key_handle : NVHandle;
  rate : Z;
  rate_limits : gmap string positive
}.
End FT.

(** The store of the heap-allocated buckets. *)
Record ThrottleHeap : Type := mkThrottleHeap {
  buckets : gmap positive ThrottleRateLimit
}.

(** First half of [filter_throttle_eval]: the key of the batch.  The
    length [len] of the value is used by [APPEND_ZERO] only; what the
    function keeps in [key] is a [const gchar *], the value as a C
    string. *)
Definition filter_throttle_key (self : FT.FilterThrottle) (msgs : list LogMessage)
    (num_msg : Z) : option string :=
  if (FT.key_handle self =? 0)%N then Some EmptyString
  else
    msg ← array_get msgs (num_msg - 1);
    Some (c_string (log_msg_get_value msg (FT.key_handle self))).

(** The block of [filter_throttle_eval] under [map_lock]: look the key up,
    allocate and insert a new bucket when it is absent.  [now] is the clock
    reading of [throttle_ratelimit_new]. *)
Definition filter_throttle_lookup (now : GTimeVal) (self : FT.FilterThrottle)
    (h : ThrottleHeap) (key : string)
  : positive * FT.FilterThrottle * ThrottleHeap :=
  match g_hash_table_lookup (FT.rate_limits self) key with
  | Some rl => (rl, self, h)
  | None =>
      let rl := fresh (dom (buckets h)) in
      (rl,
       {| FT.key_handle := FT.key_handle self;
          FT.rate := FT.rate self;
          FT.rate_limits := g_hash_table_insert (FT.rate_limits self) key rl |},
       {| buckets := <[rl := throttle_ratelimit_new now (FT.rate self)]> (buckets h) |})
  end.

(** [filter_throttle_eval]; [t_new] and [t_fill] are the clock readings of
    [throttle_ratelimit_new] and [throttle_ratelimit_add_new_tokens]. *)
Definition filter_throttle_eval (t_new t_fill : GTimeVal) (self : FT.FilterThrottle)
    (h : ThrottleHeap) (msgs : list LogMessage) (num_msg : Z)
  : option (bool * FT.FilterThrottle * ThrottleHeap) :=
  key ← filter_throttle_key self msgs num_msg;
  let '(rl, self', h') := filter_throttle_lookup t_new self h key in
  b ← buckets h' !! rl;
  let '(within_ratelimit, b') := throttle_ratelimit_process_new_logs t_fill b num_msg in
  Some (within_ratelimit, self', {| buckets := <[rl := b']> (buckets h') |}).

(** [filter_throttle_init]. *)
Definition filter_throttle_init (self : FT.FilterThrottle) : bool :=
  if FT.rate self <=? 0 then false else true.

(** [filter_throttle_new]: [g_new0] zeroes the fields, the table is empty. *)
Definition filter_throttle_new : FT.FilterThrottle :=
  {| FT.key_handle := 0%N; FT.rate := 0; FT.rate_limits := ∅ |}.

(** Every key of the table points to an allocated bucket, no two keys
    point to the same bucket, and every allocated bucket belongs to a key:
    the table owns exactly one bucket per key. *)
Definition table_wf (self : FT.FilterThrottle) (h : ThrottleHeap) : Prop :=
  (∀ k l, FT.rate_limits self !! k = Some l → is_Some (buckets h !! l)) ∧
  (∀ k1 k2 l, FT.rate_limits self !! k1 = Some l →
              FT.rate_limits self !! k2 = Some l → k1 = k2) ∧
  (∀ l, is_Some (buckets h !! l) → ∃ k, FT.rate_limits self !! k = Some l).

(** The bucket a key is bound to, read through the table. *)
Definition bucket_of (self : FT.FilterThrottle) (h : ThrottleHeap) (key : string)
  : option ThrottleRateLimit :=
  l ← g_hash_table_lookup (FT.rate_limits self) key; buckets h !! l.

(** ** Statistics ([stats.c]) *)

Record StatsOptions : Type := mkStatsOptions {
  level : Z;
  log_freq : Z;
  lifetime : Z
}.

(** [stats_options_defaults]. *)
Definition stats_options_defaults : StatsOptions :=
  {| level := 0; log_freq := 600; lifetime := 600 |}.

(** [stats_check_level]; the global pointer [stats_options] is [None]
    until [stats_reinit] installs an object. *)
Definition stats_check_level (stats_options : option StatsOptions) (lvl : Z) : bool :=
  match stats_options with
  | Some o => level o >=? lvl
  | None => lvl =? 0
  end.

(** Counter kinds, in the order of the [tag_names] table. *)
Definition SC_TYPE_DROPPED : Z := 0.
Definition SC_TYPE_PROCESSED : Z := 1.
Definition SC_TYPE_STORED : Z := 2.
Definition SC_TYPE_SUPPRESSED : Z := 3.
Definition SC_TYPE_STAMP : Z := 4.
Definition SC_TYPE_MAX : Z := 5.

(** Modelled from the spec: [StatsCounterItem] is declared in a header
    that is not among the sources; a counter holds a 64-bit integer. *)
Record StatsCounterItem : Type := mkStatsCounterItem { value : Z }.

(** Modelled from the spec: [StatsCluster] is declared in a header that is
    not among the sources.  [counters] is the array indexed by counter
    kind. *)
Record StatsCluster : Type := mkStatsCluster {
  source : Z;
  id : string;
  instance : option string;
  counters : Z → StatsCounterItem;
  live_mask : Z;
  dynamic : bool;
  ref_cnt : Z
}.

(** [stats_counter_is_expired]; [None] is the dereference of a null
    [stats_options]. *)
Definition stats_counter_is_expired (stats_options : option StatsOptions)
    (sc : StatsCluster) (now : Z) : option bool :=
  if negb (dynamic sc) then Some false
  else if ref_cnt sc >? 0 then Some false
  else if Z.land (live_mask sc) (Z.shiftl 1 SC_TYPE_STAMP) =? 0 then Some false
  else
    let tstamp := value (counters sc SC_TYPE_STAMP) in
    o ← stats_options;
    Some (tstamp <=? to_time_t (now - lifetime o)).

(** Modelled from the spec: the event record and [stats_log_format_cluster]
    belong to the logging collaborators; the snapshot is the sequence of
    clusters formatted into it. *)
Record EVTREC : Type := mkEVTREC { ev_desc : string; ev_clusters : list StatsCluster }.

(** Modelled from the spec: [msg_event_create] "begins constructing a
    publishable snapshot event"; the priority is not kept. *)
Definition msg_event_create (desc : string) : EVTREC :=
  {| ev_desc := desc; ev_clusters := [] |}.

(** Modelled from the spec: [stats_log_format_cluster] "formats the cluster
    into the snapshot"; without a snapshot there is nothing to format
    into. *)
Definition stats_log_format_cluster (sc : StatsCluster) (ev : option EVTREC)
  : option EVTREC :=
  match ev with
  | Some e => Some {| ev_desc := ev_desc e; ev_clusters := ev_clusters e ++ [sc] |}
  | None => None
  end.

Record StatsTimerState : Type := mkStatsTimerState {
  now : GTimeVal;
  oldest_counter : Z;
  dropped_counters : Z;
  stats_event : option EVTREC
}.

(** [stats_prune_counter]. *)
Definition stats_prune_counter (stats_options : option StatsOptions)
    (sc : StatsCluster) (st : StatsTimerState) : option (bool * StatsTimerState) :=
  expired ← stats_counter_is_expired stats_options sc (tv_sec (now st));
  if expired : bool then
    let tstamp := value (counters sc SC_TYPE_STAMP) in
    let oldest :=
      if (oldest_counter st =? 0) || (oldest_counter st >? tstamp)
      then tstamp else oldest_counter st in
    Some (true, {| now := now st;
                   oldest_counter := oldest;
                   dropped_counters := to_gint (dropped_counters st + 1);
                   stats_event := stats_event st |})
  else Some (false, st).

(** [stats_format_and_prune_cluster]. *)
Definition stats_format_and_prune_cluster (stats_options : option StatsOptions)
    (sc : StatsCluster) (st : StatsTimerState) : option (bool * StatsTimerState) :=
  stats_prune_counter stats_options sc
    {| now := now st;
       oldest_counter := oldest_counter st;
       dropped_counters := dropped_counters st;
       stats_event := stats_log_format_cluster sc (stats_event st) |}.

(** Modelled from the spec: [stats_foreach_cluster_remove] belongs to the
    registry (not among the sources): it "visits every cluster currently
    registered, exactly once" and removes the clusters for which the
    callback answers true.  The registry is the list of its clusters in
    the order of the visit. *)
Fixpoint stats_foreach_cluster_remove {S : Type}
    (func : StatsCluster → S → option (bool * S))
    (registry : list StatsCluster) (user_data : S) : option (list StatsCluster * S) :=
  match registry with
  | [] => Some ([], user_data)
  | sc :: rest =>
      match func sc user_data with
      | None => None
      | Some (remove, st) =>
          match stats_foreach_cluster_remove func rest st with
          | None => None
          | Some (rest', st') => Some (if remove then rest' else sc :: rest', st')
          end
      end
  end.

(** What one run of the maintenance pass leaves behind. *)
Record PassResult : Type := mkPassResult {
  pass_registry : list StatsCluster;
  pass_state : StatsTimerState;
  pass_published : option EVTREC;
  pass_notice : option (Z * Z)
}.

(** [stats_publish_and_prune_counters]; [t] is the reading of
    [cached_g_current_time]. *)
Definition stats_publish_and_prune_counters (stats_options : option StatsOptions)
    (t : GTimeVal) (registry : list StatsCluster) : option PassResult :=
  o ← stats_options;
  let publish := log_freq o >? 0 in
  let st := {| now := t;
               oldest_counter := 0;
               dropped_counters := 0;
               stats_event :=
                 if publish then Some (msg_event_create "Log statistics") else None |} in
  r ← stats_foreach_cluster_remove (stats_format_and_prune_cluster stats_options)
        registry st;
  Some {| pass_registry := fst r;
          pass_state := snd r;
          pass_published := if publish then stats_event (snd r) else None;
          pass_notice :=
            if dropped_counters (snd r) >? 0
            then Some (dropped_counters (snd r), oldest_counter (snd r))
            else None |}.

(** *** The statistics timer *)

(** Modelled from the spec: [struct iv_timer] and its operations come from
    the ivykis library.  A timer is armed when it is registered; [expires]
    is kept in milliseconds. *)
Record iv_timer : Type := mkIvTimer {
  handler : bool;
  cookie : Z;
  registered : bool;
  expires : Z
}.

(** [stats_timer_rearm]; [iv_now] is the clock of the event loop. *)
Definition stats_timer_rearm (iv_now : Z) (timer : iv_timer) : iv_timer :=
  let freq := cookie timer in
  if freq >? 0
  then {| handler := handler timer;
          cookie := cookie timer;
          registered := true;
          expires := iv_now + to_gint (freq * 1000) |}
  else timer.

(** [stats_timer_init]: [IV_TIMER_INIT] marks the timer as not registered. *)
Definition stats_timer_init (timer : iv_timer) (freq : Z) : iv_timer :=
  {| handler := true; cookie := freq; registered := false; expires := expires timer |}.

(** [stats_timer_kill]. *)
Definition stats_timer_kill (timer : iv_timer) : iv_timer :=
  if negb (handler timer) then timer
  else if registered timer
       then {| handler := handler timer;
               cookie := cookie timer;
               registered := false;
               expires := expires timer |}
       else timer.

(** The local [freq] of [stats_timer_reinit]. *)
Definition stats_timer_freq (o : StatsOptions) : Z :=
  let freq := log_freq o in
  if freq =? 0
  then (if lifetime o <=? 1 then 1 else Z.quot (lifetime o) 2)
  else freq.

(** [stats_timer_reinit]. *)
Definition stats_timer_reinit (stats_options : option StatsOptions) (iv_now : Z)
    (stats_timer : iv_timer) : option iv_timer :=
  o ← stats_options;
  let freq := stats_timer_freq o in
  Some (stats_timer_rearm iv_now
          (stats_timer_init (stats_timer_kill stats_timer) freq)).

(** The globals of [stats.c]. *)
Record StatsGlobals : Type := mkStatsGlobals {
  stats_options : option StatsOptions;
  stats_timer : iv_timer
}.

(** Static storage is zero-initialised. *)
Definition stats_globals_init : StatsGlobals :=
  {| stats_options := None;
     stats_timer := {| handler := false; cookie := 0; registered := false; expires := 0 |} |}.

(** [stats_reinit]. *)
Definition stats_reinit (g : StatsGlobals) (options : StatsOptions) (iv_now : Z)
  : option StatsGlobals :=
  timer ← stats_timer_reinit (Some options) iv_now (stats_timer g);
  Some {| stats_options := Some options; stats_timer := timer |}.

(** ** Definitions that follow the wording of the specification *)

(** Spec 4.6: "effective interval = [options.log_freq] if nonzero, else
    [max(1, options.lifetime / 2)]". *)
Definition spec_effective_interval (o : StatsOptions) : Z :=
  if log_freq o =? 0 then Z.max 1 (lifetime o / 2) else log_freq o.

(** Spec 4.1: "new tokens = [floor(elapsed_usec * rate / 1_000_000)]". *)
Definition spec_new_tokens (elapsed_usec r : Z) : Z :=
  elapsed_usec * r / 1000000.

(** Spec 4.5: the clusters of a pass that are expired, their number and the
    minimum of their timestamps (0 when there is none). *)
Definition is_expired (stats_options : option StatsOptions) (t : GTimeVal)
    (sc : StatsCluster) : bool :=
  match stats_counter_is_expired stats_options sc (tv_sec t) with
  | Some b => b
  | None => false
  end.

Definition timestamp_of (sc : StatsCluster) : Z := value (counters sc SC_TYPE_STAMP).

Definition spec_dropped_count (stats_options : option StatsOptions) (t : GTimeVal)
    (registry : list StatsCluster) : Z :=
  Z.of_nat (length (List.filter (is_expired stats_options t) registry)).

Definition min_or_zero (l : list Z) : Z :=
  match l with
  | [] => 0
  | x :: rest => fold_left Z.min rest x
  end.

Definition spec_oldest_dropped (stats_options : option StatsOptions) (t : GTimeVal)
    (registry : list StatsCluster) : Z :=
  min_or_zero (List.map timestamp_of (List.filter (is_expired stats_options t) registry)).

(** A sequence of [process] calls on one bucket: the verdicts, in order,
    and the bucket at the end. *)
Fixpoint process_all (b : ThrottleRateLimit) (reqs : list (GTimeVal * Z))
  : list bool * ThrottleRateLimit :=
  match reqs with
  | [] => ([], b)
  | (t, n) :: rest =>
      let r := throttle_ratelimit_process_new_logs t b n in
      let r' := process_all (snd r) rest in
      (fst r :: fst r', snd r')
  end.

(** An operation that stays inside the arithmetic the code was written
    for: a refill that adds a non-negative number of tokens without
    leaving [gint], a request for a non-negative amount. *)
Definition op_in_range (b : ThrottleRateLimit) (op : bucket_op) : Prop :=
  match op with
  | OpRefill t => 0 <= num_new_tokens t b ∧ tokens b + num_new_tokens t b <= max_gint
  | OpConsume n => 0 <= n
  end.

Fixpoint ops_in_range (b : ThrottleRateLimit) (ops : list bucket_op) : Prop :=
  match ops with
  | [] => True
  | op :: rest => op_in_range b op ∧ ops_in_range (bucket_step b op) rest
  end.

(** Requests are for a number of messages, which is not negative. *)
Definition consume_nonneg (op : bucket_op) : Prop :=
  match op with
  | OpRefill _ => True
  | OpConsume n => 0 <= n
  end.

(** The update of [st->oldest_counter] in [stats_prune_counter], as a
    function of the running value and the timestamp of the dropped
    cluster. *)
Definition oldest_step (oldest tstamp : Z) : Z :=
  if (oldest =? 0) || (oldest >? tstamp) then tstamp else oldest.

(** A cluster with a live timestamp counter, for the scenarios. *)
Definition stamped_cluster (name : string) (tstamp : Z) (dyn : bool) (refs : Z)
  : StatsCluster :=
  {| source := 0;
     id := name;
     instance := None;
     counters := λ i, {| value := if i =? SC_TYPE_STAMP then tstamp else 0 |};
     live_mask := Z.shiftl 1 SC_TYPE_STAMP;
     dynamic := dyn;
     ref_cnt := refs |}.

(** ** Further functions of the two files *)

(** [filter_throttle_set_key]. *)
Definition filter_throttle_set_key (self : FT.FilterThrottle) (key_handle : NVHandle)
  : FT.FilterThrottle :=
  {| FT.key_handle := key_handle;
     FT.rate := FT.rate self;
     FT.rate_limits := FT.rate_limits self |}.

(** [filter_throttle_set_rate]. *)
Definition filter_throttle_set_rate (self : FT.FilterThrottle) (rate0 : Z)
  : FT.FilterThrottle :=
  {| FT.key_handle := FT.key_handle self;
     FT.rate := rate0;
     FT.rate_limits := FT.rate_limits self |}.

(** The number of messages let through by a sequence of [process] calls:
    the sizes of the batches whose verdict was true. *)
Fixpoint accepted_total (reqs : list (GTimeVal * Z)) (verdicts : list bool) : Z :=
  match reqs, verdicts with
  | (_, n) :: reqs', v :: verdicts' =>
      (if v : bool then n else 0) + accepted_total reqs' verdicts'
  | _, _ => 0
  end.

(** A clock reading for a refill that the arithmetic of the code was
    written for: it is not before the last refill, and neither the product
    nor the tokens of a full bucket plus the new ones leave the C types. *)
Definition refill_clock_ok (b : ThrottleRateLimit) (t : GTimeVal) : Prop :=
  let T := g_time_val_diff t (last_check b) in
  0 <= T ∧ T * rate b <= max_glong ∧ spec_new_tokens T (rate b) + rate b <= max_gint.

Definition op_clock_ok (b : ThrottleRateLimit) (op : bucket_op) : Prop :=
  match op with
  | OpRefill t => refill_clock_ok b t
  | OpConsume n => 0 <= n
  end.

Fixpoint ops_clock_ok (b : ThrottleRateLimit) (ops : list bucket_op) : Prop :=
  match ops with
  | [] => True
  | op :: rest => op_clock_ok b op ∧ ops_clock_ok (bucket_step b op) rest
  end.

(** The table [tag_names] of [stats_get_type_name], and the function:
    [None] is a read outside the table. *)
Definition tag_names : list string :=
  ["dropped"; "processed"; "stored"; "suppressed"; "stamp"]%string.

Definition stats_get_type_name (type : Z) : option string :=
  array_get tag_names type.

(** The table [source_names] of [stats_get_source_name]. *)
Definition source_names : list string :=
  ["none"; "file"; "pipe"; "tcp"; "udp"; "tcp6"; "udp6"; "unix-stream";
   "unix-dgram"; "syslog"; "network"; "internal"; "logstore"; "program";
   "sql"; "sun-streams"; "usertty"; "group"; "center"; "host"; "global";
   "mongodb"; "class"; "rule_id"; "tag"; "severity"; "facility"; "sender";
   "smtp"; "amqp"; "stomp"; "redis"; "snmp"]%string.

(** [stats_get_source_name]; the constant [SCS_SOURCE_MASK] is declared in a
    header that is not among the sources and is an argument here. *)
Definition stats_get_source_name (SCS_SOURCE_MASK : Z) (source : Z) : option string :=
  array_get source_names (Z.land source SCS_SOURCE_MASK).

(** [stats_timer_elapsed], the handler of the timer: one maintenance pass,
    then [stats_timer_rearm].  [t] and [iv_now] are the two clocks read. *)
Definition stats_timer_elapsed (g : StatsGlobals) (t : GTimeVal) (iv_now : Z)
    (registry : list StatsCluster) : option (PassResult * StatsGlobals) :=
  r ← stats_publish_and_prune_counters (stats_options g) t registry;
  Some (r, {| stats_options := stats_options g;
              stats_timer := stats_timer_rearm iv_now (stats_timer g) |}).

(** A clock reading as a number of microseconds. *)
Definition usec_of (t : GTimeVal) : Z := tv_sec t * 1000000 + tv_usec t.

(** A clock reading as [g_get_current_time] gives it: the microseconds are
    normalised and the seconds are those of an epoch that has begun (and
    will not reach 2^40 seconds). *)
Definition time_ok (t : GTimeVal) : Prop :=
  0 <= tv_sec t <= 1099511627776 ∧ 0 <= tv_usec t < 1000000.

(** A sequence of requests whose clock readings do not go back, starting
    not before [prev] microseconds, and whose sizes are not negative. *)
Fixpoint window_ok (prev : Z) (reqs : list (GTimeVal * Z)) : Prop :=
  match reqs with
  | [] => True
  | (t, n) :: rest =>
      time_ok t ∧ prev <= usec_of t ∧ 0 <= n ∧ window_ok (usec_of t) rest
  end.

(** The time of the last request, [prev] when there is none. *)
Fixpoint last_usec (prev : Z) (reqs : list (GTimeVal * Z)) : Z :=
  match reqs with
  | [] => prev
  | (t, _) :: rest => last_usec (usec_of t) rest
  end.

(** * Properties *)

(** ** Machine integers *)

Lemma to_gint_id (x : Z) : in_gint x → to_gint x = x.
Proof.
  unfold in_gint, min_gint, max_gint, to_gint, wrap. intros Hx.
  change (2 ^ (32 - 1)) with 2147483648 in *.
  change (2 ^ 31) with 2147483648 in *.
  change (2 ^ 32) with 4294967296.
  rewrite Z.mod_small; lia.
Qed.

Lemma to_glong_id (x : Z) : in_glong x → to_glong x = x.
Proof.
  unfold in_glong, min_glong, max_glong, to_glong, wrap. intros Hx.
  change (2 ^ (64 - 1)) with 9223372036854775808 in *.
  change (2 ^ 63) with 9223372036854775808 in *.
  change (2 ^ 64) with 18446744073709551616.
  rewrite Z.mod_small; lia.
Qed.

Lemma to_time_t_id (x : Z) : in_glong x → to_time_t x = x.
Proof. exact (to_glong_id x). Qed.

Lemma to_gint_in_gint (x : Z) : in_gint (to_gint x).
Proof.
  unfold in_gint, min_gint, max_gint, to_gint, wrap.
  change (2 ^ (32 - 1)) with 2147483648.
  change (2 ^ 31) with 2147483648.
  change (2 ^ 32) with 4294967296.
  pose proof (Z.mod_pos_bound (x + 2147483648) 4294967296). lia.
Qed.

Lemma in_gint_intro (x : Z) : -2147483648 <= x <= 2147483647 → in_gint x.
Proof. unfold in_gint, min_gint, max_gint. lia. Qed.

Lemma in_gint_elim (x : Z) : in_gint x → -2147483648 <= x <= 2147483647.
Proof. unfold in_gint, min_gint, max_gint. lia. Qed.

Lemma in_glong_intro (x : Z) :
  -9223372036854775808 <= x <= 9223372036854775807 → in_glong x.
Proof. unfold in_glong, min_glong, max_glong. lia. Qed.

Lemma in_glong_elim (x : Z) :
  in_glong x → -9223372036854775808 <= x <= 9223372036854775807.
Proof. unfold in_glong, min_glong, max_glong. lia. Qed.

Lemma max_gint_eq : max_gint = 2147483647.
Proof. reflexivity. Qed.

Lemma max_glong_eq : max_glong = 9223372036854775807.
Proof. reflexivity. Qed.

Lemma MIN_le_l (a b : Z) : MIN a b <= a.
Proof. unfold MIN. destruct (Z.ltb_spec a b); lia. Qed.

Lemma MIN_is_min (a b : Z) : MIN a b = Z.min a b.
Proof. unfold MIN. destruct (Z.ltb_spec a b); lia. Qed.

Lemma g_time_val_diff_same (t : GTimeVal) : g_time_val_diff t t = 0.
Proof. unfold g_time_val_diff. rewrite !Z.sub_diag. reflexivity. Qed.

(** ** Token bucket *)

Section TokenBucket.

Implicit Types (self b : ThrottleRateLimit) (t : GTimeVal) (n : Z).

Lemma add_new_tokens_rate t self :
  rate (throttle_ratelimit_add_new_tokens t self) = rate self.
Proof.
  unfold throttle_ratelimit_add_new_tokens.
  destruct (num_new_tokens t self =? 0); reflexivity.
Qed.

(** Whatever the clock says, a refill never leaves more tokens than the
    capacity in a bucket that had no more than that. *)
Lemma add_new_tokens_upper t self :
  tokens self <= rate self →
  tokens (throttle_ratelimit_add_new_tokens t self) <= rate self.
Proof.
  intros Hle. unfold throttle_ratelimit_add_new_tokens.
  destruct (num_new_tokens t self =? 0); cbn [tokens]; [exact Hle | apply MIN_le_l].
Qed.

Lemma try_consume_verdict self n :
  fst (throttle_ratelimit_try_consume_tokens self n) = true ↔ tokens self >= n.
Proof.
  unfold throttle_ratelimit_try_consume_tokens.
  destruct (Z.geb_spec (tokens self) n) as [Hge | Hlt]; cbn [fst].
  - split; [lia | reflexivity].
  - split; [discriminate | lia].
Qed.

Lemma try_consume_failure self n :
  fst (throttle_ratelimit_try_consume_tokens self n) = false →
  snd (throttle_ratelimit_try_consume_tokens self n) = self.
Proof.
  unfold throttle_ratelimit_try_consume_tokens.
  destruct (tokens self >=? n); cbn [fst snd]; [discriminate | reflexivity].
Qed.

Lemma try_consume_frame self n :
  rate (snd (throttle_ratelimit_try_consume_tokens self n)) = rate self ∧
  last_check (snd (throttle_ratelimit_try_consume_tokens self n)) = last_check self.
Proof.
  unfold throttle_ratelimit_try_consume_tokens.
  destruct (tokens self >=? n); cbn [snd rate last_check]; split; reflexivity.
Qed.

(** One operation inside the intended arithmetic keeps the bounds. *)
Lemma token_bounds_step b op :
  in_gint (rate b) → token_bounds b → op_in_range b op →
  token_bounds (bucket_step b op) ∧ rate (bucket_step b op) = rate b.
Proof.
  unfold token_bounds. intros Hr [Hlo Hhi] Hop. apply in_gint_elim in Hr.
  destruct op as [t | n]; cbn [bucket_step op_in_range] in *.
  - destruct Hop as [Hn Hsum]. rewrite max_gint_eq in Hsum.
    unfold throttle_ratelimit_add_new_tokens.
    destruct (num_new_tokens t b =? 0); cbn [tokens rate]; [lia |].
    rewrite to_gint_id by (apply in_gint_intro; lia).
    rewrite MIN_is_min. lia.
  - unfold throttle_ratelimit_try_consume_tokens.
    destruct (Z.geb_spec (tokens b) n) as [Hge | Hlt]; cbn [snd tokens rate]; [| lia].
    rewrite to_gint_id by (apply in_gint_intro; lia).
    lia.
Qed.

(** Inside the intended arithmetic the bounds of the data model hold
    after every sequence of operations. *)
Lemma token_bounds_run ops : ∀ b,
  in_gint (rate b) → token_bounds b → ops_in_range b ops →
  token_bounds (bucket_run b ops) ∧ rate (bucket_run b ops) = rate b.
Proof.
  unfold bucket_run.
  induction ops as [| op ops IH]; intros b Hr Hb Hops;
    cbn [fold_left ops_in_range] in *.
  - split; [exact Hb | reflexivity].
  - destruct Hops as [Hop Hrest].
    destruct (token_bounds_step b op Hr Hb Hop) as [Hb' Hr'].
    destruct (IH (bucket_step b op)) as [Hb'' Hr'']; try assumption.
    + rewrite Hr'. exact Hr.
    + split; [exact Hb'' | congruence].
Qed.

(** C1, at the failing input: a bucket of rate 1000 is created and then
    left idle for 2147484 seconds (not quite 25 days).  The number of new
    tokens, 2147484000, does not fit the [gint] it is stored in and
    becomes negative; as the test of the refill is [num_new_tokens != 0],
    the negative amount is added and the bucket ends with a negative
    number of tokens, outside [0 <= tokens <= capacity]. *)
Theorem token_bounds_broken_by_long_idle :
  let t0 := {| tv_sec := 1700000000; tv_usec := 0 |} in
  let t1 := {| tv_sec := 1700000000 + 2147484; tv_usec := 0 |} in
  let b0 := throttle_ratelimit_new t0 1000 in
  token_bounds b0 ∧
  g_time_val_diff t1 (last_check b0) = 2147484000000 ∧
  num_new_tokens t1 b0 = -2147483296 ∧
  tokens (bucket_run b0 [OpRefill t1]) = -2147482296 ∧
  ¬ token_bounds (bucket_run b0 [OpRefill t1]).
Proof.
  cbv zeta. split; [unfold token_bounds; cbn [tokens rate throttle_ratelimit_new]; lia |].
  split; [vm_compute; reflexivity |].
  split; [vm_compute; reflexivity |].
  assert (Htok : tokens (bucket_run (throttle_ratelimit_new
                   {| tv_sec := 1700000000; tv_usec := 0 |} 1000)
                   [OpRefill {| tv_sec := 1700000000 + 2147484; tv_usec := 0 |}])
                 = -2147482296) by (vm_compute; reflexivity).
  split; [exact Htok |].
  unfold token_bounds. rewrite Htok. lia.
Qed.

(** The same test lets a clock that is set back take tokens away: after
    the five tokens of a bucket of rate 5 are consumed, a refill one
    second before the last one leaves [-5] tokens. *)
Lemma token_bounds_broken_by_clock_step_back :
  let t0 := {| tv_sec := 1700000000; tv_usec := 0 |} in
  let t1 := {| tv_sec := 1700000000 - 1; tv_usec := 0 |} in
  let b0 := throttle_ratelimit_new t0 5 in
  tokens (bucket_run b0 [OpConsume 5; OpRefill t1]) = -5.
Proof. vm_compute. reflexivity. Qed.

(** C2: [try_consume(n)] succeeds exactly when [tokens >= n]; on success
    the tokens decrease by exactly [n] and neither the capacity nor the
    time of the last refill changes; on failure the bucket is unchanged.
    [Hdef] says that the C subtraction [tokens - n] is defined (it does
    not overflow [gint]), which is the case for every [n >= 0]. *)
Theorem try_consume_spec self n
  (Htok : in_gint (tokens self))
  (Hdef : tokens self - n <= max_gint) :
  let r := throttle_ratelimit_try_consume_tokens self n in
  (fst r = true ↔ tokens self >= n) ∧
  (fst r = true →
     tokens (snd r) = tokens self - n ∧
     rate (snd r) = rate self ∧
     last_check (snd r) = last_check self) ∧
  (fst r = false → snd r = self).
Proof.
  cbv zeta. split; [apply try_consume_verdict |].
  split; [| apply try_consume_failure].
  intros Hok. apply try_consume_verdict in Hok.
  split; [| apply try_consume_frame].
  unfold throttle_ratelimit_try_consume_tokens.
  destruct (Z.geb_spec (tokens self) n) as [_ | Hlt]; [| lia]. cbn [snd tokens].
  apply in_gint_elim in Htok. rewrite max_gint_eq in Hdef.
  apply to_gint_id, in_gint_intro. lia.
Qed.

Lemma try_consume_spec_witness :
  let self := {| tokens := 5; rate := 5;
                 last_check := {| tv_sec := 1700000000; tv_usec := 0 |} |} in
  (in_gint (tokens self) ∧ tokens self - 3 <= max_gint) ∧
  let r := throttle_ratelimit_try_consume_tokens self 3 in
  (fst r = true ↔ tokens self >= 3) ∧
  (fst r = true →
     tokens (snd r) = tokens self - 3 ∧
     rate (snd r) = rate self ∧
     last_check (snd r) = last_check self) ∧
  (fst r = false → snd r = self).
Proof.
  cbv zeta.
  assert (H1 : in_gint 5) by (apply in_gint_intro; lia).
  assert (H2 : 5 - 3 <= max_gint) by (rewrite max_gint_eq; lia).
  split; [split; [exact H1 | exact H2] |].
  exact (try_consume_spec
           {| tokens := 5; rate := 5;
              last_check := {| tv_sec := 1700000000; tv_usec := 0 |} |} 3 H1 H2).
Defined.

(** *** Refill *)

(** Inside the arithmetic of the C types the local [num_new_tokens] is the
    quotient of the specification. *)
Lemma num_new_tokens_exact t self :
  let T := g_time_val_diff t (last_check self) in
  0 <= rate self → 0 <= T → T * rate self <= max_glong →
  spec_new_tokens T (rate self) <= max_gint →
  num_new_tokens t self = spec_new_tokens T (rate self).
Proof.
  cbv zeta. unfold num_new_tokens, spec_new_tokens, G_USEC_PER_SEC.
  set (T := g_time_val_diff t (last_check self)).
  rewrite max_glong_eq, max_gint_eq. intros Hr HT Hmul Hnew.
  assert (Hprod : 0 <= T * rate self) by (apply Z.mul_nonneg_nonneg; assumption).
  rewrite to_glong_id by (apply in_glong_intro; lia).
  rewrite Z.quot_div_nonneg by lia.
  assert (Hq : 0 <= T * rate self / 1000000) by (apply Z.div_pos; lia).
  apply to_gint_id, in_gint_intro. lia.
Qed.

Lemma add_new_tokens_exact t self :
  let T := g_time_val_diff t (last_check self) in
  let new := spec_new_tokens T (rate self) in
  0 <= rate self → 0 <= T → T * rate self <= max_glong →
  in_gint (tokens self) → new <= max_gint → tokens self + new <= max_gint →
  (0 < new →
     throttle_ratelimit_add_new_tokens t self =
       {| tokens := Z.min (rate self) (tokens self + new);
          rate := rate self;
          last_check := t |}) ∧
  (new = 0 → throttle_ratelimit_add_new_tokens t self = self).
Proof.
  cbv zeta. intros Hr HT Hmul Htok Hnew Hsum.
  unfold throttle_ratelimit_add_new_tokens.
  rewrite (num_new_tokens_exact t self Hr HT Hmul Hnew).
  set (new := spec_new_tokens (g_time_val_diff t (last_check self)) (rate self)) in *.
  apply in_gint_elim in Htok. rewrite max_gint_eq in *.
  split; intros Hcase.
  - destruct (Z.eqb_spec new 0) as [H0 | _]; [lia |].
    rewrite to_gint_id by (apply in_gint_intro; lia).
    rewrite MIN_is_min. reflexivity.
  - rewrite Hcase. reflexivity.
Qed.

(** Boundary case: when the rate divides one million, the first token
    arrives after exactly [1000000 / rate] microseconds. *)
Lemma add_new_tokens_boundary t self :
  tokens self = 0 → 0 < rate self → (rate self | 1000000) →
  g_time_val_diff t (last_check self) = 1000000 / rate self →
  num_new_tokens t self = 1 ∧
  throttle_ratelimit_add_new_tokens t self =
    {| tokens := 1; rate := rate self; last_check := t |}.
Proof.
  intros Htok Hr Hdiv HT.
  assert (Hprod : g_time_val_diff t (last_check self) * rate self = 1000000).
  { rewrite HT. destruct Hdiv as [k Hk]. rewrite Hk at 1.
    rewrite Z.div_mul by lia. lia. }
  assert (Hnew : num_new_tokens t self = 1).
  { unfold num_new_tokens. rewrite Hprod. reflexivity. }
  split; [exact Hnew |].
  unfold throttle_ratelimit_add_new_tokens. rewrite Hnew, Htok.
  change (1 =? 0) with false. change (to_gint (0 + 1)) with 1. cbv iota.
  rewrite MIN_is_min. f_equal. lia.
Qed.

(** Inside the arithmetic of the C types the refill is the one of the
    formula: for a bucket of rate [R >= 0] and a refill whose elapsed time
    [T] is not negative, and as long as the products and sums fit their
    types, the number of new tokens is
    [floor(T * R / 1000000)]; when it is positive the tokens become
    [min(capacity, tokens + new)] and the time of the last refill becomes
    [now]; when it is zero the bucket is unchanged.  Starting from an empty
    bucket whose rate divides 1000000, waiting exactly [1000000 / R]
    microseconds yields exactly one new token. *)
Theorem refill_spec t self
  (Hrate : 0 <= rate self)
  (Helapsed : 0 <= g_time_val_diff t (last_check self))
  (Hmul : g_time_val_diff t (last_check self) * rate self <= max_glong)
  (Htok : in_gint (tokens self))
  (Hnew : spec_new_tokens (g_time_val_diff t (last_check self)) (rate self) <= max_gint)
  (Hsum : tokens self
          + spec_new_tokens (g_time_val_diff t (last_check self)) (rate self)
          <= max_gint) :
  let T := g_time_val_diff t (last_check self) in
  let new := spec_new_tokens T (rate self) in
  num_new_tokens t self = new ∧
  (0 < new →
     throttle_ratelimit_add_new_tokens t self =
       {| tokens := Z.min (rate self) (tokens self + new);
          rate := rate self;
          last_check := t |}) ∧
  (new = 0 → throttle_ratelimit_add_new_tokens t self = self) ∧
  (tokens self = 0 → 0 < rate self → (rate self | 1000000) →
   T = 1000000 / rate self →
   new = 1 ∧ tokens (throttle_ratelimit_add_new_tokens t self) = 1).
Proof.
  cbv zeta.
  pose proof (num_new_tokens_exact t self Hrate Helapsed Hmul Hnew) as Hnum.
  destruct (add_new_tokens_exact t self Hrate Helapsed Hmul Htok Hnew Hsum)
    as [Hpos Hzero].
  split; [exact Hnum |]. split; [exact Hpos |]. split; [exact Hzero |].
  intros H0 Hr Hdiv HT.
  destruct (add_new_tokens_boundary t self H0 Hr Hdiv HT) as [Hone Hadd].
  split; [congruence | rewrite Hadd; reflexivity].
Qed.

Lemma refill_spec_witness :
  let self := {| tokens := 2; rate := 10;
                 last_check := {| tv_sec := 1700000000; tv_usec := 0 |} |} in
  let t := {| tv_sec := 1700000000; tv_usec := 250000 |} in
  g_time_val_diff t (last_check self) = 250000 ∧
  num_new_tokens t self = 2 ∧
  throttle_ratelimit_add_new_tokens t self = {| tokens := 4; rate := 10; last_check := t |}.
Proof.
  cbv zeta.
  set (self := {| tokens := 2; rate := 10;
                  last_check := {| tv_sec := 1700000000; tv_usec := 0 |} |}).
  set (t := {| tv_sec := 1700000000; tv_usec := 250000 |}).
  assert (HT : g_time_val_diff t (last_check self) = 250000) by (vm_compute; reflexivity).
  assert (H1 : 0 <= rate self) by (vm_compute; discriminate).
  assert (H2 : 0 <= g_time_val_diff t (last_check self)) by (vm_compute; discriminate).
  assert (H3 : g_time_val_diff t (last_check self) * rate self <= max_glong)
    by (vm_compute; discriminate).
  assert (H4 : in_gint (tokens self)) by (split; vm_compute; discriminate).
  assert (H5 : spec_new_tokens (g_time_val_diff t (last_check self)) (rate self) <= max_gint)
    by (vm_compute; discriminate).
  assert (H6 : tokens self
               + spec_new_tokens (g_time_val_diff t (last_check self)) (rate self)
               <= max_gint) by (vm_compute; discriminate).
  destruct (refill_spec t self H1 H2 H3 H4 H5 H6) as (Hnum & Hpos & _).
  split; [exact HT |].
  split; [rewrite Hnum; vm_compute; reflexivity |].
  rewrite Hpos by (vm_compute; reflexivity). vm_compute. reflexivity.
Defined.

(** C3, at the failing input: a bucket of rate 1000 that holds 1000
    tokens is refilled 2147484 seconds (not quite 25 days) after its last
    refill.  The elapsed time [T] is 2147484000000 microseconds and
    [floor(T * R / 1000000)] is 2147484000, strictly positive, so the
    tokens are to become [min(capacity, tokens + new) = 1000].  The code
    keeps the number of new tokens in a [gint], where it is -2147483296,
    tests it against zero only, and leaves -2147482296 tokens. *)
Theorem refill_wrong_after_long_idle :
  let t0 := {| tv_sec := 1700000000; tv_usec := 0 |} in
  let t1 := {| tv_sec := 1700000000 + 2147484; tv_usec := 0 |} in
  let b0 := throttle_ratelimit_new t0 1000 in
  let T := g_time_val_diff t1 (last_check b0) in
  let new := spec_new_tokens T (rate b0) in
  T = 2147484000000 ∧
  new = 2147484000 ∧
  Z.min (rate b0) (tokens b0 + new) = 1000 ∧
  num_new_tokens t1 b0 = -2147483296 ∧
  throttle_ratelimit_add_new_tokens t1 b0
    = {| tokens := -2147482296; rate := 1000; last_check := t1 |} ∧
  num_new_tokens t1 b0 ≠ new ∧
  throttle_ratelimit_add_new_tokens t1 b0
    ≠ {| tokens := Z.min (rate b0) (tokens b0 + new); rate := rate b0; last_check := t1 |}.
Proof.
  cbv zeta. split; [vm_compute; reflexivity |].
  split; [vm_compute; reflexivity |].
  split; [vm_compute; reflexivity |].
  split; [vm_compute; reflexivity |].
  split; [vm_compute; reflexivity |].
  split; vm_compute; discriminate.
Qed.

(** *** The combined entry point *)

Lemma add_new_tokens_no_elapsed t self :
  last_check self = t → throttle_ratelimit_add_new_tokens t self = self.
Proof.
  intros <-. unfold throttle_ratelimit_add_new_tokens, num_new_tokens.
  rewrite g_time_val_diff_same, Z.mul_0_l. reflexivity.
Qed.

(** The upper bound survives every refill, whatever the clock reading,
    and every request for a non-negative amount. *)
Lemma upper_bound_step b op :
  in_gint (rate b) → in_gint (tokens b) → tokens b <= rate b → consume_nonneg op →
  rate (bucket_step b op) = rate b ∧
  in_gint (tokens (bucket_step b op)) ∧
  tokens (bucket_step b op) <= rate b.
Proof.
  intros Hr Ht Hle Hop. destruct op as [t | n]; cbn [bucket_step consume_nonneg] in *.
  - split; [apply add_new_tokens_rate |].
    split; [| apply add_new_tokens_upper, Hle].
    unfold throttle_ratelimit_add_new_tokens.
    destruct (num_new_tokens t b =? 0); cbn [tokens]; [exact Ht |].
    unfold MIN. destruct (rate b <? to_gint (tokens b + num_new_tokens t b));
      [exact Hr | apply to_gint_in_gint].
  - unfold throttle_ratelimit_try_consume_tokens.
    destruct (Z.geb_spec (tokens b) n) as [Hge | Hlt]; cbn [snd tokens rate];
      [| split; [reflexivity | split; [exact Ht | exact Hle]]].
    apply in_gint_elim in Ht.
    rewrite to_gint_id by (apply in_gint_intro; lia).
    split; [reflexivity |]. split; [apply in_gint_intro; lia | lia].
Qed.

Lemma upper_bound_run ops : ∀ b,
  in_gint (rate b) → in_gint (tokens b) → tokens b <= rate b →
  Forall consume_nonneg ops →
  rate (bucket_run b ops) = rate b ∧ tokens (bucket_run b ops) <= rate b.
Proof.
  unfold bucket_run.
  induction ops as [| op ops IH]; intros b Hr Ht Hle Hops; cbn [fold_left].
  - split; [reflexivity | exact Hle].
  - inversion Hops as [| ? ? Hop Hrest]; subst.
    destruct (upper_bound_step b op Hr Ht Hle Hop) as (Hr' & Ht' & Hle').
    destruct (IH (bucket_step b op)) as [Hr'' Hle'']; try assumption.
    + rewrite Hr'. exact Hr.
    + rewrite Hr'. exact Hle'.
    + split; congruence.
Qed.

Lemma process_all_step b t n rest (verdict : bool) b' :
  throttle_ratelimit_process_new_logs t b n = (verdict, b') →
  process_all b ((t, n) :: rest)
    = (verdict :: fst (process_all b' rest), snd (process_all b' rest)).
Proof. intros Hstep. cbn [process_all]. rewrite Hstep. reflexivity. Qed.

(** C6: a request for more tokens than the capacity fails, whatever the
    tokens in the bucket (no more than the capacity) and whatever the clock
    reading; this covers every bucket the code can produce, that is a new
    bucket after any sequence of refills and requests; and of five
    back-to-back requests for 5 tokens on a new bucket of rate 5, the first
    succeeds and leaves no token, the other four fail. *)
Theorem process_over_capacity :
  (∀ self t n,
     tokens self <= rate self → rate self < n →
     fst (throttle_ratelimit_process_new_logs t self n) = false) ∧
  (∀ t0 r ops t n,
     in_gint r → Forall consume_nonneg ops → r < n →
     fst (throttle_ratelimit_process_new_logs t
            (bucket_run (throttle_ratelimit_new t0 r) ops) n) = false) ∧
  (∀ t0,
     let b0 := throttle_ratelimit_new t0 5 in
     throttle_ratelimit_process_new_logs t0 b0 5
       = (true, {| tokens := 0; rate := 5; last_check := t0 |}) ∧
     process_all b0 [(t0, 5); (t0, 5); (t0, 5); (t0, 5); (t0, 5)]
       = ([true; false; false; false; false],
          {| tokens := 0; rate := 5; last_check := t0 |})).
Proof.
  assert (Hover : ∀ self t n,
            tokens self <= rate self → rate self < n →
            fst (throttle_ratelimit_process_new_logs t self n) = false).
  { intros self t n Hinv Hbig. unfold throttle_ratelimit_process_new_logs.
    pose proof (add_new_tokens_upper t self Hinv) as Hup.
    destruct (fst (throttle_ratelimit_try_consume_tokens
                     (throttle_ratelimit_add_new_tokens t self) n)) eqn:Hv;
      [| reflexivity].
    apply try_consume_verdict in Hv. lia. }
  split; [exact Hover |]. split.
  - intros t0 r ops t n Hr Hops Hbig.
    destruct (upper_bound_run ops (throttle_ratelimit_new t0 r)) as [Hrate Hle].
    { exact Hr. }
    { exact Hr. }
    { cbn [tokens rate throttle_ratelimit_new]. lia. }
    { exact Hops. }
    apply Hover; rewrite Hrate; [exact Hle | exact Hbig].
  - intros t0. cbv zeta.
    assert (Hfirst : throttle_ratelimit_process_new_logs t0 (throttle_ratelimit_new t0 5) 5
                     = (true, {| tokens := 0; rate := 5; last_check := t0 |})).
    { unfold throttle_ratelimit_process_new_logs.
      rewrite add_new_tokens_no_elapsed by reflexivity. vm_compute. reflexivity. }
    assert (Hnext : throttle_ratelimit_process_new_logs t0
                      {| tokens := 0; rate := 5; last_check := t0 |} 5
                    = (false, {| tokens := 0; rate := 5; last_check := t0 |})).
    { unfold throttle_ratelimit_process_new_logs.
      rewrite add_new_tokens_no_elapsed by reflexivity. vm_compute. reflexivity. }
    split; [exact Hfirst |].
    rewrite (process_all_step _ _ _ _ _ _ Hfirst).
    rewrite !(process_all_step _ _ _ _ _ _ Hnext).
    reflexivity.
Qed.

Lemma process_over_capacity_witness :
  let self := {| tokens := 5; rate := 5;
                 last_check := {| tv_sec := 1700000000; tv_usec := 0 |} |} in
  let t := {| tv_sec := 1700003600; tv_usec := 0 |} in
  (tokens self <= rate self ∧ rate self < 6) ∧
  fst (throttle_ratelimit_process_new_logs t self 6) = false.
Proof.
  cbv zeta.
  assert (H1 : 5 <= 5) by lia.
  assert (H2 : 5 < 6) by lia.
  split; [split; [exact H1 | exact H2] |].
  exact (proj1 process_over_capacity
           {| tokens := 5; rate := 5;
              last_check := {| tv_sec := 1700000000; tv_usec := 0 |} |}
           {| tv_sec := 1700003600; tv_usec := 0 |} 6 H1 H2).
Defined.

End TokenBucket.

(** ** Throttle evaluator *)

Section ThrottleEvaluator.

Implicit Types (self : FT.FilterThrottle) (h : ThrottleHeap) (key : string).

Lemma array_get_last {A : Type} (pre : list A) (x : A) :
  array_get (pre ++ [x]) (Z.of_nat (length (pre ++ [x])) - 1) = Some x.
Proof.
  unfold array_get. rewrite length_app. cbn [length].
  replace (Z.of_nat (length pre + 1) - 1) with (Z.of_nat (length pre)) by lia.
  destruct (Z.ltb_spec (Z.of_nat (length pre)) 0) as [Hneg | _]; [lia |].
  rewrite Nat2Z.id. apply list_lookup_middle. reflexivity.
Qed.

(** *** C strings *)

Lemma c_string_nul_free (s : string) : nul_free (c_string s) = true.
Proof.
  induction s as [| c s IH]; [reflexivity |]. cbn [c_string].
  destruct (Ascii.eqb c NUL) eqn:Hc; [reflexivity |].
  cbn [nul_free]. rewrite Hc, IH. reflexivity.
Qed.

(** A value without a NUL byte is read whole. *)
Lemma c_string_whole (s : string) : nul_free s = true → c_string s = s.
Proof.
  induction s as [| c s IH]; [reflexivity |]. cbn [nul_free c_string].
  intros H. apply andb_prop in H as [Hc Hs].
  apply negb_true_iff in Hc. rewrite Hc, (IH Hs). reflexivity.
Qed.

Lemma c_string_idempotent (s : string) : c_string (c_string s) = c_string s.
Proof. apply c_string_whole, c_string_nul_free. Qed.

(** A value with a NUL byte is read up to the first one. *)
Lemma c_string_cut (s : string) :
  nul_free s = false →
  ∃ rest, s = String.append (c_string s) (String NUL rest).
Proof.
  induction s as [| c s IH]; [discriminate |]. cbn [nul_free c_string].
  destruct (Ascii.eqb_spec c NUL) as [-> | Hne]; cbn [negb andb].
  - intros _. exists s. reflexivity.
  - intros Hs. destruct (IH Hs) as [rest Hrest]. exists rest.
    transitivity (String c (String.append (c_string s) (String NUL rest)));
      [f_equal; exact Hrest | reflexivity].
Qed.

(** The key of a batch is a C string. *)
Lemma filter_throttle_key_c_string self (msgs : list LogMessage) (num_msg : Z) key :
  filter_throttle_key self msgs num_msg = Some key → c_string key = key.
Proof.
  unfold filter_throttle_key.
  destruct (FT.key_handle self =? 0)%N.
  - intros Hk. inversion Hk. reflexivity.
  - destruct (array_get msgs (num_msg - 1)) as [msg |]; cbn [mbind option_bind].
    + intros Hk. inversion Hk. apply c_string_idempotent.
    + discriminate.
Qed.

(** C8, as stated, fails for a value with a NUL byte: the last record
    has the three bytes [a], NUL, [b] in the key field, and the key of the
    batch is the one byte [a], not the value. *)
Lemma key_cut_at_nul_counterexample :
  let v := String "a"%char (String NUL (String "b"%char EmptyString)) in
  let self := {| FT.key_handle := 7%N; FT.rate := 5; FT.rate_limits := ∅ |} in
  let m := {| nv_values := {[ 7%N := v ]} |} in
  nv_values m !! FT.key_handle self = Some v ∧
  log_msg_get_value m (FT.key_handle self) = v ∧
  filter_throttle_key self [m] 1 = Some "a"%string ∧
  filter_throttle_key self [m] 1 ≠ Some v.
Proof.
  cbv zeta. split; [vm_compute; reflexivity |].
  split; [vm_compute; reflexivity |].
  split; [vm_compute; reflexivity |].
  vm_compute. discriminate.
Qed.

(** C8, as amended: the key of a non-empty batch is the empty string when
    no key field is configured; otherwise it is the value that the last
    record has for the key field, read as a C string (cut at its first
    NUL byte, so the whole value when it has no NUL byte), or the empty
    string when that record does not have the field.  The records before
    the last one play no part. *)
Theorem key_from_last_record self (pre : list LogMessage) (m : LogMessage) :
  filter_throttle_key self (pre ++ [m]) (Z.of_nat (length (pre ++ [m])))
    = Some (if (FT.key_handle self =? 0)%N then EmptyString
            else match nv_values m !! FT.key_handle self with
                 | Some v => c_string v
                 | None => EmptyString
                 end) ∧
  (∀ v : string,
     FT.key_handle self ≠ 0%N →
     nv_values m !! FT.key_handle self = Some v →
     (nul_free v = true →
      filter_throttle_key self (pre ++ [m]) (Z.of_nat (length (pre ++ [m]))) = Some v) ∧
     (nul_free v = false →
      ∃ k rest,
        filter_throttle_key self (pre ++ [m]) (Z.of_nat (length (pre ++ [m]))) = Some k ∧
        nul_free k = true ∧
        v = String.append k (String NUL rest))) ∧
  ∀ pre' : list LogMessage,
    filter_throttle_key self (pre' ++ [m]) (Z.of_nat (length (pre' ++ [m])))
      = filter_throttle_key self (pre ++ [m]) (Z.of_nat (length (pre ++ [m]))).
Proof.
  assert (Hkey : ∀ p : list LogMessage,
            filter_throttle_key self (p ++ [m]) (Z.of_nat (length (p ++ [m])))
              = Some (if (FT.key_handle self =? 0)%N then EmptyString
                      else match nv_values m !! FT.key_handle self with
                           | Some v => c_string v
                           | None => EmptyString
                           end)).
  { intros p. unfold filter_throttle_key.
    destruct (FT.key_handle self =? 0)%N; [reflexivity |].
    rewrite array_get_last. cbn [mbind option_bind]. unfold log_msg_get_value.
    destruct (nv_values m !! FT.key_handle self); reflexivity. }
  split; [apply Hkey |]. split.
  - intros v Hh Hv. rewrite Hkey, Hv.
    destruct (N.eqb_spec (FT.key_handle self) 0) as [| _]; [contradiction |].
    split.
    + intros Hfree. rewrite (c_string_whole v Hfree). reflexivity.
    + intros Hnul. destruct (c_string_cut v Hnul) as [rest Hrest].
      exists (c_string v), rest.
      split; [reflexivity |]. split; [apply c_string_nul_free | exact Hrest].
  - intros pre'. rewrite !Hkey. reflexivity.
Qed.

Lemma key_from_last_record_witness :
  let self := {| FT.key_handle := 7%N; FT.rate := 5; FT.rate_limits := ∅ |} in
  let m1 := {| nv_values := {[ 7%N := "first"%string ]} |} in
  let m2 := {| nv_values := {[ 7%N := "last"%string ]} |} in
  filter_throttle_key self [m1; m2] 2 = Some "last"%string.
Proof.
  cbv zeta.
  set (self := {| FT.key_handle := 7%N; FT.rate := 5; FT.rate_limits := ∅ |}).
  set (m1 := {| nv_values := {[ 7%N := "first"%string ]} |}).
  set (m2 := {| nv_values := {[ 7%N := "last"%string ]} |}).
  destruct (key_from_last_record self [m1] m2) as (_ & Hwhole & _).
  assert (Hh : FT.key_handle self ≠ 0%N) by discriminate.
  assert (Hv : nv_values m2 !! FT.key_handle self = Some "last"%string)
    by (vm_compute; reflexivity).
  destruct (Hwhole "last"%string Hh Hv) as [Hfree _].
  apply Hfree. reflexivity.
Defined.

(** The table and the store of a new filter. *)
Lemma table_wf_new : table_wf filter_throttle_new {| buckets := ∅ |}.
Proof.
  unfold table_wf, filter_throttle_new. cbn. repeat split.
  - intros k l Hk. rewrite lookup_empty in Hk. discriminate.
  - intros k1 k2 l Hk. rewrite lookup_empty in Hk. discriminate.
  - intros l [b Hb]. rewrite lookup_empty in Hb. discriminate.
Qed.

(** A table with one key and the store with its bucket. *)
Lemma table_wf_singleton (handle : NVHandle) (r : Z) key (l : positive)
    (b : ThrottleRateLimit) :
  table_wf {| FT.key_handle := handle; FT.rate := r; FT.rate_limits := {[ key := l ]} |}
           {| buckets := {[ l := b ]} |}.
Proof.
  unfold table_wf. cbn [FT.rate_limits buckets]. split; [| split].
  - intros k l0 Hk. apply lookup_singleton_Some in Hk as [_ <-].
    rewrite lookup_singleton_eq. eauto.
  - intros k1 k2 l0 H1 H2.
    apply lookup_singleton_Some in H1 as [<- _].
    apply lookup_singleton_Some in H2 as [<- _]. reflexivity.
  - intros l0 [b0 Hb]. apply lookup_singleton_Some in Hb as [<- _].
    exists key. apply lookup_singleton_eq.
Qed.

Lemma fresh_bucket_unallocated h : buckets h !! fresh (dom (buckets h)) = None.
Proof. apply not_elem_of_dom, is_fresh. Qed.

(** The lookup-or-create block, for a key that is a C string: it returns
    an allocated bucket that is the one of the key, keeps the table well
    formed and leaves every bucket that was allocated before as it was. *)
Lemma filter_throttle_lookup_spec t self h key :
  c_string key = key →
  table_wf self h →
  ∀ rl self' h', filter_throttle_lookup t self h key = (rl, self', h') →
    table_wf self' h' ∧
    FT.rate_limits self' !! key = Some rl ∧
    is_Some (buckets h' !! rl) ∧
    (∀ k, k ≠ key → FT.rate_limits self' !! k = FT.rate_limits self !! k) ∧
    (∀ l, l ≠ rl → buckets h' !! l = buckets h !! l) ∧
    (∀ k, k ≠ key → FT.rate_limits self' !! k ≠ Some rl).
Proof.
  intros Hc (Halloc & Hinj & Hown) rl self' h' Hlk.
  unfold filter_throttle_lookup, g_hash_table_lookup, g_hash_table_insert in Hlk.
  rewrite Hc in Hlk.
  destruct (FT.rate_limits self !! key) as [l |] eqn:Hkey.
  - inversion Hlk; subst rl self' h'; clear Hlk.
    split; [repeat split; assumption |].
    split; [exact Hkey |]. split; [eapply Halloc, Hkey |].
    split; [reflexivity |]. split; [reflexivity |].
    intros k Hne Hk. apply Hne. eapply Hinj; eassumption.
  - inversion Hlk; subst rl self' h'; clear Hlk.
    unfold table_wf. cbn [FT.rate_limits buckets].
    pose proof (fresh_bucket_unallocated h) as Hfresh.
    set (l := fresh (dom (buckets h))) in *.
    assert (Hunused : ∀ k, FT.rate_limits self !! k ≠ Some l).
    { intros k Hk. destruct (Halloc k l Hk) as [b Hb]. congruence. }
    split; [repeat split |].
    + intros k l0 Hk. destruct (decide (key = k)) as [-> | Hne].
      * rewrite lookup_insert_eq in Hk. inversion Hk; subst l0.
        rewrite lookup_insert_eq. eauto.
      * rewrite lookup_insert_ne in Hk by exact Hne.
        destruct (Halloc k l0 Hk) as [b Hb].
        destruct (decide (l = l0)) as [-> | Hl]; [congruence |].
        rewrite lookup_insert_ne by exact Hl. eauto.
    + intros k1 k2 l0 H1 H2.
      destruct (decide (key = k1)) as [E1 | N1], (decide (key = k2)) as [E2 | N2].
      * congruence.
      * subst k1. rewrite lookup_insert_eq in H1. inversion H1; subst l0.
        rewrite lookup_insert_ne in H2 by exact N2. exfalso. eapply Hunused, H2.
      * subst k2. rewrite lookup_insert_eq in H2. inversion H2; subst l0.
        rewrite lookup_insert_ne in H1 by exact N1. exfalso. eapply Hunused, H1.
      * rewrite lookup_insert_ne in H1 by exact N1.
        rewrite lookup_insert_ne in H2 by exact N2. eapply Hinj; eassumption.
    + intros l0 Hl0. destruct (decide (l = l0)) as [<- | Hl].
      * exists key. apply lookup_insert_eq.
      * rewrite lookup_insert_ne in Hl0 by exact Hl.
        destruct (Hown l0 Hl0) as [k Hk]. exists k.
        rewrite lookup_insert_ne; [exact Hk |]. intros ->. congruence.
    + split; [apply lookup_insert_eq |].
      split; [rewrite lookup_insert_eq; eauto |].
      split; [intros k Hne; apply lookup_insert_ne; congruence |].
      split; [intros l0 Hne; apply lookup_insert_ne; congruence |].
      intros k Hne Hk. rewrite lookup_insert_ne in Hk by congruence.
      eapply Hunused, Hk.
Qed.

(** Writing a bucket back at an allocated location keeps the table well
    formed. *)
Lemma table_wf_update self h rl b :
  table_wf self h → is_Some (buckets h !! rl) →
  table_wf self {| buckets := <[rl := b]> (buckets h) |}.
Proof.
  intros (Halloc & Hinj & Hown) Hrl. repeat split; cbn.
  - intros k l Hk. apply lookup_insert_is_Some'. right. eapply Halloc, Hk.
  - exact Hinj.
  - intros l Hl. apply lookup_insert_is_Some' in Hl.
    destruct Hl as [<- | Hl]; [apply Hown, Hrl | apply Hown, Hl].
Qed.

(** C9, as stated, fails for two keys that are distinct byte strings and
    the same C string.  The table has a bucket with five tokens for the
    key [a]; a batch of one record whose key field holds the three bytes
    [a], NUL, [b] is evaluated; the bucket of [a] is the one that is
    looked up and it loses a token. *)
Lemma key_isolation_nul_counterexample :
  let t := {| tv_sec := 1700000000; tv_usec := 0 |} in
  let k1 := String "a"%char (String NUL (String "b"%char EmptyString)) in
  let k2 := "a"%string in
  let b2 := {| tokens := 5; rate := 5; last_check := t |} in
  let self := {| FT.key_handle := 7%N; FT.rate := 5;
                 FT.rate_limits := {[ k2 := 1%positive ]} |} in
  let h := {| buckets := {[ 1%positive := b2 ]} |} in
  let m := {| nv_values := {[ 7%N := k1 ]} |} in
  k1 ≠ k2 ∧
  log_msg_get_value m (FT.key_handle self) = k1 ∧
  table_wf self h ∧
  bucket_of self h k2 = Some b2 ∧
  ∃ self' h',
    filter_throttle_eval t t self h [m] 1 = Some (true, self', h') ∧
    bucket_of self' h' k2 = Some {| tokens := 4; rate := 5; last_check := t |} ∧
    bucket_of self' h' k2 ≠ bucket_of self h k2.
Proof.
  cbv zeta. split; [discriminate |].
  split; [vm_compute; reflexivity |].
  split; [apply table_wf_singleton |].
  split; [vm_compute; reflexivity |].
  exists {| FT.key_handle := 7%N; FT.rate := 5;
            FT.rate_limits := {[ "a"%string := 1%positive ]} |},
         {| buckets :=
              <[1%positive := {| tokens := 4; rate := 5;
                                 last_check := {| tv_sec := 1700000000; tv_usec := 0 |} |}]>
                {[ 1%positive := {| tokens := 5; rate := 5;
                                    last_check := {| tv_sec := 1700000000;
                                                     tv_usec := 0 |} |} ]} |}.
  split; [vm_compute; reflexivity |].
  split; [vm_compute; reflexivity |].
  vm_compute. discriminate.
Qed.

(** C9, as amended: keys are told apart as C strings.  On a well-formed
    table an evaluation whose batch has key [k1] returns a verdict, leaves
    a table that still owns exactly one bucket per key, and leaves the
    bucket of every key [k2] that is another C string (its tokens,
    capacity and time of last refill) as it was. *)
Theorem key_isolation t_new t_fill self h (msgs : list LogMessage) (num_msg : Z)
    (k1 : string)
  (Hwf : table_wf self h)
  (Hkey : filter_throttle_key self msgs num_msg = Some k1) :
  ∃ verdict self' h',
    filter_throttle_eval t_new t_fill self h msgs num_msg = Some (verdict, self', h') ∧
    table_wf self' h' ∧
    is_Some (bucket_of self' h' k1) ∧
    ∀ k2, c_string k1 ≠ c_string k2 →
      g_hash_table_lookup (FT.rate_limits self') k2
        = g_hash_table_lookup (FT.rate_limits self) k2 ∧
      bucket_of self' h' k2 = bucket_of self h k2.
Proof.
  pose proof (filter_throttle_key_c_string self msgs num_msg k1 Hkey) as Hc.
  unfold filter_throttle_eval. rewrite Hkey. cbn [mbind option_bind].
  destruct (filter_throttle_lookup t_new self h k1) as [[rl self1] h1] eqn:Hlk.
  destruct (filter_throttle_lookup_spec t_new self h k1 Hc Hwf rl self1 h1 Hlk)
    as (Hwf1 & Hk1 & [b Hb] & Htab & Hheap & Hother).
  rewrite Hb. cbn [mbind option_bind].
  destruct (throttle_ratelimit_process_new_logs t_fill b num_msg) as [verdict b'].
  exists verdict, self1, {| buckets := <[rl := b']> (buckets h1) |}.
  split; [reflexivity |].
  split; [apply table_wf_update; eauto |].
  split.
  - unfold bucket_of, g_hash_table_lookup. rewrite Hc, Hk1.
    cbn [mbind option_bind buckets]. rewrite lookup_insert_eq. eauto.
  - intros k2 Hne. rewrite Hc in Hne.
    unfold bucket_of, g_hash_table_lookup.
    assert (Hk2 : FT.rate_limits self1 !! c_string k2
                  = FT.rate_limits self !! c_string k2)
      by (apply Htab; congruence).
    split; [exact Hk2 |].
    rewrite Hk2.
    destruct (FT.rate_limits self !! c_string k2) as [l2 |] eqn:Hl2; [| reflexivity].
    cbn [mbind option_bind buckets].
    assert (Hl : l2 ≠ rl).
    { intros ->. apply (Hother (c_string k2)); congruence. }
    rewrite lookup_insert_ne by congruence. apply Hheap, Hl.
Qed.

Lemma key_isolation_witness :
  let t0 := {| tv_sec := 1700000000; tv_usec := 0 |} in
  let t := {| tv_sec := 1700000003; tv_usec := 0 |} in
  let beta := {| tokens := 2; rate := 5; last_check := t0 |} in
  let self := {| FT.key_handle := 7%N; FT.rate := 5;
                 FT.rate_limits := {[ "beta"%string := 1%positive ]} |} in
  let h := {| buckets := {[ 1%positive := beta ]} |} in
  let m := {| nv_values := {[ 7%N := "alpha"%string ]} |} in
  ∃ verdict self' h',
    filter_throttle_eval t t self h [m] 1 = Some (verdict, self', h') ∧
    is_Some (bucket_of self' h' "alpha"%string) ∧
    bucket_of self' h' "beta"%string = Some beta.
Proof.
  cbv zeta.
  set (t0 := {| tv_sec := 1700000000; tv_usec := 0 |}).
  set (t := {| tv_sec := 1700000003; tv_usec := 0 |}).
  set (beta := {| tokens := 2; rate := 5; last_check := t0 |}).
  set (self := {| FT.key_handle := 7%N; FT.rate := 5;
                  FT.rate_limits := {[ "beta"%string := 1%positive ]} |}).
  set (h := {| buckets := {[ 1%positive := beta ]} |}).
  set (m := {| nv_values := {[ 7%N := "alpha"%string ]} |}).
  assert (Hwf : table_wf self h) by apply table_wf_singleton.
  assert (Hkey : filter_throttle_key self [m] 1 = Some "alpha"%string)
    by (vm_compute; reflexivity).
  destruct (key_isolation t t self h [m] 1 "alpha"%string Hwf Hkey)
    as (verdict & self' & h' & Hev & _ & Halpha & Hiso).
  exists verdict, self', h'. split; [exact Hev |]. split; [exact Halpha |].
  assert (Hne : c_string "alpha" ≠ c_string "beta") by (vm_compute; discriminate).
  destruct (Hiso "beta"%string Hne) as [_ Hbeta].
  rewrite Hbeta. vm_compute. reflexivity.
Defined.

End ThrottleEvaluator.

(** ** Statistics *)

Section Stats.

Implicit Types (o : StatsOptions) (sc : StatsCluster) (st : StatsTimerState).

(** *** Verbosity level *)

(** C10: before any [stats_reinit] the check succeeds exactly for level 0;
    once [stats_reinit] has installed an options object it succeeds
    exactly when the installed level is at least the requested one. *)
Theorem stats_check_level_spec (lvl : Z) :
  (stats_check_level (stats_options stats_globals_init) lvl = true ↔ lvl = 0) ∧
  (∀ o, stats_check_level (Some o) lvl = true ↔ level o >= lvl) ∧
  (∀ g o iv_now, ∃ g',
     stats_reinit g o iv_now = Some g' ∧
     stats_options g' = Some o ∧
     (stats_check_level (stats_options g') lvl = true ↔ level o >= lvl)).
Proof.
  assert (Hsome : ∀ o, stats_check_level (Some o) lvl = true ↔ level o >= lvl).
  { intros o. cbn [stats_check_level].
    destruct (Z.geb_spec (level o) lvl); split; intros; try lia; try reflexivity;
      discriminate. }
  split; [| split; [exact Hsome |]].
  - cbn [stats_check_level stats_options stats_globals_init]. apply Z.eqb_eq.
  - intros g o iv_now. unfold stats_reinit, stats_timer_reinit.
    cbn [mbind option_bind]. eexists. split; [reflexivity |].
    cbn [stats_options]. split; [reflexivity | apply Hsome].
Qed.

(** *** The timer interval *)

Lemma stats_timer_freq_spec o : stats_timer_freq o = spec_effective_interval o.
Proof.
  unfold stats_timer_freq, spec_effective_interval.
  destruct (log_freq o =? 0); [| reflexivity].
  destruct (Z.leb_spec (lifetime o) 1) as [Hle | Hgt].
  - assert (lifetime o / 2 <= 0) by (apply Z.lt_succ_r, Z.div_lt_upper_bound; lia).
    lia.
  - rewrite Z.quot_div_nonneg by lia.
    assert (1 <= lifetime o / 2) by (apply Z.div_le_lower_bound; lia). lia.
Qed.

Lemma stats_timer_rearm_cookie iv_now timer :
  cookie (stats_timer_rearm iv_now timer) = cookie timer.
Proof. unfold stats_timer_rearm. destruct (cookie timer >? 0); reflexivity. Qed.

(** C7: the interval that [stats_timer_reinit] gives the timer is
    [log_freq] when that is not zero and [max(1, lifetime / 2)] otherwise;
    the expression of the code and the one of the specification agree for
    every lifetime; for [log_freq = 0] and [lifetime = 10] the interval is
    5. *)
Theorem stats_timer_reinit_interval o (iv_now : Z) (timer : iv_timer) :
  (∃ timer',
     stats_timer_reinit (Some o) iv_now timer = Some timer' ∧
     cookie timer' = spec_effective_interval o) ∧
  stats_timer_freq o = spec_effective_interval o ∧
  (if lifetime o <=? 1 then 1 else Z.quot (lifetime o) 2) = Z.max 1 (lifetime o / 2) ∧
  (∀ lvl, stats_timer_freq {| level := lvl; log_freq := 0; lifetime := 10 |} = 5).
Proof.
  split; [| split; [apply stats_timer_freq_spec | split]].
  - unfold stats_timer_reinit. cbn [mbind option_bind]. eexists.
    split; [reflexivity |].
    rewrite stats_timer_rearm_cookie. cbn [cookie stats_timer_init].
    apply stats_timer_freq_spec.
  - pose proof (stats_timer_freq_spec
                  {| level := level o; log_freq := 0; lifetime := lifetime o |}) as H.
    unfold stats_timer_freq, spec_effective_interval in H.
    cbn [log_freq lifetime] in H. exact H.
  - intros lvl. reflexivity.
Qed.

(** *** Expiry *)

Lemma stamp_bit_test (m : Z) :
  (Z.land m (Z.shiftl 1 SC_TYPE_STAMP) =? 0) = negb (Z.testbit m SC_TYPE_STAMP).
Proof.
  change (Z.shiftl 1 SC_TYPE_STAMP) with (2 ^ 4). unfold SC_TYPE_STAMP.
  destruct (Z.testbit m 4) eqn:Hbit; cbn [negb].
  - apply Z.eqb_neq. intros Hz.
    assert (Hb : Z.testbit (Z.land m (2 ^ 4)) 4 = true).
    { rewrite Z.land_spec, Hbit, Z.pow2_bits_true by lia. reflexivity. }
    rewrite Hz, Z.bits_0 in Hb. discriminate.
  - apply Z.eqb_eq. apply Z.bits_inj'. intros n Hn.
    rewrite Z.land_spec, Z.bits_0, Z.pow2_bits_eqb by lia.
    destruct (Z.eqb_spec 4 n) as [<- | _].
    + rewrite Hbit. reflexivity.
    + apply andb_false_r.
Qed.

Lemma stats_counter_is_expired_total o sc (n : Z) :
  stats_counter_is_expired (Some o) sc n
    = Some (dynamic sc && negb (ref_cnt sc >? 0)
            && Z.testbit (live_mask sc) SC_TYPE_STAMP
            && (timestamp_of sc <=? to_time_t (n - lifetime o))).
Proof.
  unfold stats_counter_is_expired, timestamp_of. rewrite stamp_bit_test.
  destruct (dynamic sc); [| reflexivity].
  destruct (ref_cnt sc >? 0); [reflexivity |].
  destruct (Z.testbit (live_mask sc) SC_TYPE_STAMP); reflexivity.
Qed.

(** C4: a cluster that is not dynamic, or is referenced, or has no
    timestamp counter in its [live_mask] is not expired; any other cluster
    is expired exactly when its timestamp is at most [now - lifetime], the
    boundary included.  [Hdef]: the C subtraction [now - lifetime] is
    defined (it does not overflow [time_t]). *)
Theorem stats_counter_is_expired_spec o sc (n : Z)
  (Hdef : in_glong (n - lifetime o)) :
  (dynamic sc = false → stats_counter_is_expired (Some o) sc n = Some false) ∧
  (ref_cnt sc > 0 → stats_counter_is_expired (Some o) sc n = Some false) ∧
  (Z.testbit (live_mask sc) SC_TYPE_STAMP = false →
   stats_counter_is_expired (Some o) sc n = Some false) ∧
  (dynamic sc = true → ref_cnt sc <= 0 →
   Z.testbit (live_mask sc) SC_TYPE_STAMP = true →
   stats_counter_is_expired (Some o) sc n
     = Some (value (counters sc SC_TYPE_STAMP) <=? n - lifetime o) ∧
   (value (counters sc SC_TYPE_STAMP) = n - lifetime o →
    stats_counter_is_expired (Some o) sc n = Some true)).
Proof.
  rewrite stats_counter_is_expired_total, (to_time_t_id _ Hdef).
  unfold timestamp_of.
  split; [intros ->; reflexivity |].
  split.
  { intros Href. destruct (Z.gtb_spec (ref_cnt sc) 0); [| lia].
    rewrite andb_false_r. reflexivity. }
  split; [intros ->; rewrite andb_false_r; reflexivity |].
  intros -> Href ->. destruct (Z.gtb_spec (ref_cnt sc) 0); [lia |].
  split; [reflexivity |].
  intros ->. rewrite Z.leb_refl. reflexivity.
Qed.

Lemma stats_counter_is_expired_spec_witness :
  let o := {| level := 0; log_freq := 600; lifetime := 600 |} in
  let sc := {| source := 0; id := "conn"%string; instance := None;
               counters := λ i, {| value := if i =? 4 then 1699999400 else 0 |};
               live_mask := 16; dynamic := true; ref_cnt := 0 |} in
  in_glong (1700000000 - lifetime o) ∧
  stats_counter_is_expired (Some o) sc 1700000000 = Some true.
Proof.
  cbv zeta.
  assert (Hdef : in_glong (1700000000 - 600)) by (apply in_glong_intro; lia).
  split; [exact Hdef |].
  refine (proj2 (proj2 (proj2 (proj2
           (stats_counter_is_expired_spec
              {| level := 0; log_freq := 600; lifetime := 600 |}
              {| source := 0; id := "conn"%string; instance := None;
                 counters := λ i, {| value := if i =? 4 then 1699999400 else 0 |};
                 live_mask := 16; dynamic := true; ref_cnt := 0 |}
              1700000000 Hdef))) _ _ _) _).
  - reflexivity.
  - cbn [ref_cnt]. lia.
  - reflexivity.
  - reflexivity.
Defined.

(** *** The maintenance pass *)

Lemma is_expired_eq o t sc :
  stats_counter_is_expired (Some o) sc (tv_sec t) = Some (is_expired (Some o) t sc).
Proof.
  unfold is_expired. rewrite stats_counter_is_expired_total. reflexivity.
Qed.

Lemma stats_format_and_prune_cluster_step o sc st :
  stats_format_and_prune_cluster (Some o) sc st
    = Some (is_expired (Some o) (now st) sc,
            {| now := now st;
               oldest_counter :=
                 if is_expired (Some o) (now st) sc
                 then oldest_step (oldest_counter st) (timestamp_of sc)
                 else oldest_counter st;
               dropped_counters :=
                 if is_expired (Some o) (now st) sc
                 then to_gint (dropped_counters st + 1)
                 else dropped_counters st;
               stats_event := stats_log_format_cluster sc (stats_event st) |}).
Proof.
  unfold stats_format_and_prune_cluster, stats_prune_counter.
  cbn [now oldest_counter dropped_counters stats_event].
  rewrite is_expired_eq. cbn [mbind option_bind].
  destruct (is_expired (Some o) (now st) sc); reflexivity.
Qed.

(** The traversal: what it removes and what it accumulates, from any
    state of the aggregates. *)
Lemma stats_foreach_cluster_remove_spec o t registry : ∀ st,
  now st = t → 0 <= dropped_counters st →
  dropped_counters st + Z.of_nat (length registry) <= max_gint →
  ∃ registry' st',
    stats_foreach_cluster_remove (stats_format_and_prune_cluster (Some o)) registry st
      = Some (registry', st') ∧
    now st' = t ∧
    registry' = List.filter (λ sc, negb (is_expired (Some o) t sc)) registry ∧
    dropped_counters st'
      = dropped_counters st
        + Z.of_nat (length (List.filter (is_expired (Some o) t) registry)) ∧
    oldest_counter st'
      = fold_left oldest_step
          (List.map timestamp_of (List.filter (is_expired (Some o) t) registry))
          (oldest_counter st).
Proof.
  induction registry as [| sc rest IH]; intros st Hnow Hpos Hmax.
  - exists [], st. cbn. repeat split; try reflexivity; try assumption. lia.
  - cbn [stats_foreach_cluster_remove].
    rewrite stats_format_and_prune_cluster_step, Hnow.
    cbn [length] in Hmax. rewrite max_gint_eq in Hmax.
    cbn [List.filter List.map].
    destruct (is_expired (Some o) t sc) eqn:Hexp; cbn [negb].
    + rewrite to_gint_id by (apply in_gint_intro; lia).
      edestruct IH as (reg' & st' & Hrun & Hnow' & Hreg & Hcnt & Hold);
        [| | | rewrite Hrun].
      * reflexivity.
      * cbn [dropped_counters]. lia.
      * cbn [dropped_counters]. rewrite max_gint_eq. lia.
      * exists reg', st'. cbn [dropped_counters oldest_counter] in Hcnt, Hold.
        split; [reflexivity |]. split; [exact Hnow' |]. split; [exact Hreg |].
        split; [rewrite Hcnt; cbn [length]; lia |].
        rewrite Hold. reflexivity.
    + edestruct IH as (reg' & st' & Hrun & Hnow' & Hreg & Hcnt & Hold);
        [| | | rewrite Hrun].
      * reflexivity.
      * cbn [dropped_counters]. lia.
      * cbn [dropped_counters]. rewrite max_gint_eq. lia.
      * exists (sc :: reg'), st'. cbn [dropped_counters oldest_counter] in Hcnt, Hold.
        split; [reflexivity |]. split; [exact Hnow' |].
        split; [rewrite Hreg; reflexivity |].
        split; [exact Hcnt | exact Hold].
Qed.

Lemma fold_oldest_step_nonzero (l : list Z) : ∀ acc,
  acc ≠ 0 → Forall (λ x, x ≠ 0) l →
  fold_left oldest_step l acc = fold_left Z.min l acc.
Proof.
  induction l as [| x l IH]; intros acc Hacc Hl; [reflexivity |].
  inversion Hl as [| ? ? Hx Hrest]; subst. cbn [fold_left].
  assert (Hstep : oldest_step acc x = Z.min acc x).
  { unfold oldest_step. destruct (Z.eqb_spec acc 0) as [| _]; [contradiction |].
    cbn [orb]. destruct (Z.gtb_spec acc x); lia. }
  rewrite Hstep. apply IH; [lia | exact Hrest].
Qed.

Lemma fold_oldest_step_min (l : list Z) :
  Forall (λ x, x ≠ 0) l → fold_left oldest_step l 0 = min_or_zero l.
Proof.
  destruct l as [| x l]; intros Hl; [reflexivity |].
  inversion Hl as [| ? ? Hx Hrest]; subst. cbn [fold_left min_or_zero].
  change (oldest_step 0 x) with x.
  apply fold_oldest_step_nonzero; assumption.
Qed.

(** C5, as amended: a pass over fewer than 2^31 clusters reports as
    [dropped_count] the number of visited clusters for which [is_expired]
    holds, removes exactly those, and reports as
    [oldest_dropped_timestamp] the minimum of their timestamps (0 when no
    cluster is dropped) provided that none of these timestamps is 0; one
    expired dynamic cluster with [ref_count = 0] and timestamp
    [now - lifetime - 1] yields [dropped_count = 1]. *)
Theorem maintenance_pass_aggregates o (t : GTimeVal) (registry : list StatsCluster)
  (Hlen : Z.of_nat (length registry) <= max_gint) :
  ∃ r,
    stats_publish_and_prune_counters (Some o) t registry = Some r ∧
    dropped_counters (pass_state r) = spec_dropped_count (Some o) t registry ∧
    pass_registry r = List.filter (λ sc, negb (is_expired (Some o) t sc)) registry ∧
    ((∀ sc, In sc registry → is_expired (Some o) t sc = true → timestamp_of sc ≠ 0) →
     oldest_counter (pass_state r) = spec_oldest_dropped (Some o) t registry) ∧
    (∀ sc, registry = [sc] →
       dynamic sc = true → ref_cnt sc = 0 →
       Z.testbit (live_mask sc) SC_TYPE_STAMP = true →
       in_glong (tv_sec t - lifetime o) →
       timestamp_of sc = tv_sec t - lifetime o - 1 →
       dropped_counters (pass_state r) = 1 ∧
       pass_registry r = [] ∧
       pass_notice r = Some (1, timestamp_of sc)).
Proof.
  unfold stats_publish_and_prune_counters. cbn [mbind option_bind].
  set (st0 := {| now := t; oldest_counter := 0; dropped_counters := 0;
                 stats_event := if log_freq o >? 0
                                then Some (msg_event_create "Log statistics")
                                else None |}).
  destruct (stats_foreach_cluster_remove_spec o t registry st0)
    as (reg' & st' & Hrun & Hnow & Hreg & Hcnt & Hold).
  { reflexivity. }
  { cbn [dropped_counters st0]. lia. }
  { cbn [dropped_counters st0]. lia. }
  rewrite Hrun. cbn [mbind option_bind]. eexists. split; [reflexivity |].
  cbn [pass_state pass_registry pass_notice fst snd].
  cbn [dropped_counters oldest_counter st0] in Hcnt, Hold.
  split; [rewrite Hcnt; unfold spec_dropped_count; lia |].
  split; [exact Hreg |].
  split.
  - intros Hnz. rewrite Hold. unfold spec_oldest_dropped.
    apply fold_oldest_step_min. apply List.Forall_forall.
    intros x Hx. apply List.in_map_iff in Hx. destruct Hx as (sc & <- & Hsc).
    apply List.filter_In in Hsc. destruct Hsc as [Hin Hexp].
    apply Hnz; assumption.
  - intros sc -> Hdyn Href Hlive Hdef Hts.
    assert (Hexp : is_expired (Some o) t sc = true).
    { unfold is_expired. rewrite stats_counter_is_expired_total.
      rewrite Hdyn, Href, Hlive, (to_time_t_id _ Hdef), Hts.
      cbn [andb negb Z.gtb Z.compare].
      apply Z.leb_le. lia. }
    cbn [List.filter List.map] in Hcnt, Hold, Hreg.
    rewrite Hexp in Hcnt, Hold, Hreg.
    cbn [length List.map fold_left negb] in Hcnt, Hold, Hreg.
    change (oldest_step 0 (timestamp_of sc)) with (timestamp_of sc) in Hold.
    rewrite Hcnt, Hold, Hreg. cbn. repeat split; reflexivity.
Qed.

Lemma maintenance_pass_aggregates_witness :
  let o := {| level := 0; log_freq := 10; lifetime := 600 |} in
  let t := {| tv_sec := 1700000000; tv_usec := 0 |} in
  let registry := [stamped_cluster "conn" (1700000000 - 601) true 0;
                   stamped_cluster "center" 1 false 0] in
  Z.of_nat (length registry) <= max_gint ∧
  ∃ r,
    stats_publish_and_prune_counters (Some o) t registry = Some r ∧
    dropped_counters (pass_state r) = 1 ∧
    oldest_counter (pass_state r) = 1700000000 - 601.
Proof.
  cbv zeta.
  set (o := {| level := 0; log_freq := 10; lifetime := 600 |}).
  set (t := {| tv_sec := 1700000000; tv_usec := 0 |}).
  set (registry := [stamped_cluster "conn" (1700000000 - 601) true 0;
                    stamped_cluster "center" 1 false 0]).
  assert (Hlen : Z.of_nat (length registry) <= max_gint) by (vm_compute; discriminate).
  split; [exact Hlen |].
  destruct (maintenance_pass_aggregates o t registry Hlen)
    as (r & Hrun & Hcnt & _ & Hold & _).
  exists r. split; [exact Hrun |].
  split; [rewrite Hcnt; vm_compute; reflexivity |].
  rewrite Hold; [vm_compute; reflexivity |].
  intros sc [<- | [<- | []]] _; vm_compute; discriminate.
Defined.

(** C5, as stated, fails when a dropped cluster carries the timestamp 0:
    the value 0 of [oldest_counter] also means "none yet", so the zero
    timestamp is forgotten when the next cluster is dropped.  Two expired
    clusters with the timestamps 0 and 5: the minimum is 0, the pass
    reports 5. *)
Lemma maintenance_pass_oldest_counterexample :
  let o := {| level := 0; log_freq := 10; lifetime := 600 |} in
  let t := {| tv_sec := 1700000000; tv_usec := 0 |} in
  let registry := [stamped_cluster "first" 0 true 0;
                   stamped_cluster "second" 5 true 0] in
  List.map (is_expired (Some o) t) registry = [true; true] ∧
  spec_oldest_dropped (Some o) t registry = 0 ∧
  option_map (λ r, (dropped_counters (pass_state r), oldest_counter (pass_state r)))
    (stats_publish_and_prune_counters (Some o) t registry) = Some (2, 5) ∧
  option_map (λ r, oldest_counter (pass_state r))
    (stats_publish_and_prune_counters (Some o) t registry)
    ≠ Some (spec_oldest_dropped (Some o) t registry).
Proof.
  cbv zeta. split; [vm_compute; reflexivity |].
  split; [vm_compute; reflexivity |].
  split; [vm_compute; reflexivity |].
  vm_compute. discriminate.
Qed.

End Stats.

(** * Further properties of the token bucket *)

Section TokenBucketMore.

Implicit Types (self b : ThrottleRateLimit) (t : GTimeVal) (n : Z).

(** X1: a refill is idempotent at a fixed clock reading: refilling twice
    with the same reading leaves the bucket of the first refill, for every
    bucket and every reading. *)
Theorem refill_idempotent t b :
  throttle_ratelimit_add_new_tokens t (throttle_ratelimit_add_new_tokens t b)
    = throttle_ratelimit_add_new_tokens t b.
Proof.
  destruct (num_new_tokens t b =? 0) eqn:Hnew.
  - assert (Hid : throttle_ratelimit_add_new_tokens t b = b).
    { unfold throttle_ratelimit_add_new_tokens. rewrite Hnew. reflexivity. }
    rewrite !Hid. reflexivity.
  - apply add_new_tokens_no_elapsed.
    unfold throttle_ratelimit_add_new_tokens. rewrite Hnew. reflexivity.
Qed.

(** X2: the capacity of a bucket never changes and its tokens never exceed
    it, after any sequence of refills (whatever the clock readings, also
    backwards or overflowing ones) and requests for non-negative amounts. *)
Theorem capacity_never_exceeded (ops : list bucket_op) b
  (Hrate : in_gint (rate b))
  (Htok : in_gint (tokens b))
  (Hle : tokens b <= rate b)
  (Hops : Forall consume_nonneg ops) :
  rate (bucket_run b ops) = rate b ∧ tokens (bucket_run b ops) <= rate b.
Proof. exact (upper_bound_run ops b Hrate Htok Hle Hops). Qed.

Lemma capacity_never_exceeded_witness :
  let b := throttle_ratelimit_new {| tv_sec := 1700000000; tv_usec := 0 |} 1000 in
  let ops := [OpRefill {| tv_sec := 1700000000 + 2147484; tv_usec := 0 |};
              OpConsume 3;
              OpRefill {| tv_sec := 1700000000 - 50; tv_usec := 0 |}] in
  rate (bucket_run b ops) = 1000 ∧ tokens (bucket_run b ops) <= 1000.
Proof.
  cbv zeta.
  assert (H1 : in_gint 1000) by (apply in_gint_intro; lia).
  assert (H2 : 1000 <= 1000) by lia.
  assert (H3 : Forall consume_nonneg
                 [OpRefill {| tv_sec := 1700000000 + 2147484; tv_usec := 0 |};
                  OpConsume 3;
                  OpRefill {| tv_sec := 1700000000 - 50; tv_usec := 0 |}]).
  { repeat constructor. cbn [consume_nonneg]. lia. }
  exact (capacity_never_exceeded _
           (throttle_ratelimit_new {| tv_sec := 1700000000; tv_usec := 0 |} 1000)
           H1 H1 H2 H3).
Defined.

Lemma op_clock_ok_in_range b op :
  token_bounds b → op_clock_ok b op → op_in_range b op.
Proof.
  intros [Hlo Hhi] Hop. destruct op as [t | n]; cbn [op_clock_ok op_in_range] in *;
    [| exact Hop].
  destruct Hop as (HT & Hmul & Hsum).
  assert (Hr : 0 <= rate b) by lia.
  assert (Hq : 0 <= spec_new_tokens (g_time_val_diff t (last_check b)) (rate b)).
  { unfold spec_new_tokens. apply Z.div_pos; [| lia].
    apply Z.mul_nonneg_nonneg; assumption. }
  rewrite (num_new_tokens_exact t b Hr HT Hmul) by lia.
  split; [exact Hq | lia].
Qed.

(** X3: as long as no clock reading of a refill is before the last refill
    and the arithmetic stays inside the C types, and requests are for
    non-negative amounts, [0 <= tokens <= capacity] holds after every
    sequence of refills and requests. *)
Theorem token_bounds_with_forward_clock (ops : list bucket_op) : ∀ b,
  in_gint (rate b) → token_bounds b → ops_clock_ok b ops →
  token_bounds (bucket_run b ops).
Proof.
  unfold bucket_run.
  induction ops as [| op ops IH]; intros b Hr Hb Hops;
    cbn [fold_left ops_clock_ok] in *; [exact Hb |].
  destruct Hops as [Hop Hrest].
  destruct (token_bounds_step b op Hr Hb (op_clock_ok_in_range b op Hb Hop))
    as [Hb' Hr'].
  apply IH; [rewrite Hr'; exact Hr | exact Hb' | exact Hrest].
Qed.

Lemma token_bounds_with_forward_clock_witness :
  let b := throttle_ratelimit_new {| tv_sec := 1700000000; tv_usec := 0 |} 10 in
  let ops := [OpConsume 7; OpRefill {| tv_sec := 1700000000; tv_usec := 500000 |};
              OpConsume 9] in
  token_bounds (bucket_run b ops) ∧ tokens (bucket_run b ops) = 8.
Proof.
  cbv zeta.
  set (b := throttle_ratelimit_new {| tv_sec := 1700000000; tv_usec := 0 |} 10).
  set (ops := [OpConsume 7; OpRefill {| tv_sec := 1700000000; tv_usec := 500000 |};
               OpConsume 9]).
  assert (H1 : in_gint (rate b)) by (apply in_gint_intro; cbn; lia).
  assert (H2 : token_bounds b) by (unfold token_bounds; cbn; lia).
  assert (H3 : ops_clock_ok b ops).
  { cbn [ops_clock_ok ops op_clock_ok]. split; [lia |].
    split; [| split; [lia | exact I]].
    unfold refill_clock_ok. cbv zeta.
    split; [vm_compute; discriminate |].
    split; vm_compute; discriminate. }
  split; [exact (token_bounds_with_forward_clock ops b H1 H2 H3) |].
  vm_compute. reflexivity.
Defined.

Lemma process_no_elapsed t b n :
  t = last_check b → in_gint (tokens b) → 0 <= n →
  throttle_ratelimit_process_new_logs t b n
    = if tokens b >=? n
      then (true, {| tokens := tokens b - n; rate := rate b;
                     last_check := last_check b |})
      else (false, b).
Proof.
  intros Ht Htok Hn. unfold throttle_ratelimit_process_new_logs.
  rewrite add_new_tokens_no_elapsed by (symmetry; exact Ht).
  unfold throttle_ratelimit_try_consume_tokens.
  destruct (Z.geb_spec (tokens b) n) as [Hge | Hlt]; [| reflexivity].
  apply in_gint_elim in Htok.
  rewrite to_gint_id by (apply in_gint_intro; lia). reflexivity.
Qed.

(** X4: in a burst, that is a sequence of [process] calls with no elapsed
    time and non-negative batch sizes, the accepted batches take exactly
    their sizes out of the bucket: the accepted total plus the tokens left
    is the number of tokens at the start, so that a burst never lets more
    messages through than there were tokens. *)
Theorem burst_conservation (reqs : list (GTimeVal * Z)) : ∀ b,
  in_gint (tokens b) →
  Forall (λ q, fst q = last_check b ∧ 0 <= snd q) reqs →
  accepted_total reqs (fst (process_all b reqs)) + tokens (snd (process_all b reqs))
    = tokens b ∧
  rate (snd (process_all b reqs)) = rate b ∧
  last_check (snd (process_all b reqs)) = last_check b ∧
  (0 <= tokens b →
   0 <= tokens (snd (process_all b reqs)) ∧
   accepted_total reqs (fst (process_all b reqs)) <= tokens b).
Proof.
  induction reqs as [| [t n] reqs IH]; intros b Htok Hreqs.
  - cbn [process_all accepted_total fst snd]. repeat split; lia.
  - inversion Hreqs as [| ? ? [Ht Hn] Hrest]; subst. cbn [fst snd] in Ht, Hn.
    pose proof (process_no_elapsed t b n Ht Htok Hn) as Hstep.
    apply in_gint_elim in Htok.
    destruct (Z.geb_spec (tokens b) n) as [Hge | Hlt].
    + rewrite (process_all_step _ _ _ reqs _ _ Hstep).
      cbn [fst snd accepted_total].
      destruct (IH {| tokens := tokens b - n; rate := rate b;
                      last_check := last_check b |}) as (Hsum & Hr & Hl & Hpos).
      { apply in_gint_intro. cbn [tokens]. lia. }
      { exact Hrest. }
      cbn [tokens rate last_check] in Hsum, Hr, Hl, Hpos.
      split; [lia |]. split; [exact Hr |]. split; [exact Hl |].
      intros H0. destruct Hpos as [Hp1 Hp2]; [lia |]. split; lia.
    + rewrite (process_all_step _ _ _ reqs _ _ Hstep).
      cbn [fst snd accepted_total].
      destruct (IH b) as (Hsum & Hr & Hl & Hpos).
      { apply in_gint_intro. lia. }
      { exact Hrest. }
      split; [lia |]. split; [exact Hr |]. split; [exact Hl |].
      intros H0. destruct (Hpos H0) as [Hp1 Hp2]. split; lia.
Qed.

Lemma burst_conservation_witness :
  let t0 := {| tv_sec := 1700000000; tv_usec := 0 |} in
  let b := throttle_ratelimit_new t0 10 in
  let reqs := [(t0, 4); (t0, 7); (t0, 6)] in
  fst (process_all b reqs) = [true; false; true] ∧
  accepted_total reqs (fst (process_all b reqs)) + tokens (snd (process_all b reqs)) = 10.
Proof.
  cbv zeta.
  set (t0 := {| tv_sec := 1700000000; tv_usec := 0 |}).
  assert (H1 : in_gint (tokens (throttle_ratelimit_new t0 10)))
    by (apply in_gint_intro; cbn; lia).
  assert (H2 : Forall (λ q, fst q = last_check (throttle_ratelimit_new t0 10) ∧ 0 <= snd q)
                 [(t0, 4); (t0, 7); (t0, 6)]).
  { repeat constructor; cbn; lia. }
  split; [vm_compute; reflexivity |].
  exact (proj1 (burst_conservation [(t0, 4); (t0, 7); (t0, 6)]
                  (throttle_ratelimit_new t0 10) H1 H2)).
Defined.

End TokenBucketMore.

(** * Further properties of the throttle evaluator *)

Section ThrottleEvaluatorMore.

Implicit Types (self : FT.FilterThrottle) (h : ThrottleHeap) (key : string).

(** What the lookup-or-create block returns for a key that is a C
    string: the bucket of the key, or a new full bucket at a fresh
    location; what it changes: nothing for a known key, one binding and
    one allocation for a new one. *)
Lemma filter_throttle_lookup_cases t self h key :
  c_string key = key →
  table_wf self h →
  ∀ rl self1 h1, filter_throttle_lookup t self h key = (rl, self1, h1) →
    buckets h1 !! rl
      = Some (default (throttle_ratelimit_new t (FT.rate self)) (bucket_of self h key)) ∧
    FT.rate self1 = FT.rate self ∧
    FT.key_handle self1 = FT.key_handle self ∧
    (∀ l, FT.rate_limits self !! key = Some l → rl = l ∧ self1 = self ∧ h1 = h) ∧
    (FT.rate_limits self !! key = None →
       rl = fresh (dom (buckets h)) ∧
       buckets h !! rl = None ∧
       FT.rate_limits self1 = <[key := rl]> (FT.rate_limits self) ∧
       buckets h1 = <[rl := throttle_ratelimit_new t (FT.rate self)]> (buckets h)).
Proof.
  intros Hc (Halloc & _ & _) rl self1 h1 Hlk.
  unfold filter_throttle_lookup, g_hash_table_lookup, g_hash_table_insert in Hlk.
  unfold bucket_of, g_hash_table_lookup. rewrite Hc in Hlk |- *.
  destruct (FT.rate_limits self !! key) as [l |] eqn:Hkey.
  - inversion Hlk; subst rl self1 h1; clear Hlk.
    destruct (Halloc key l Hkey) as [b Hb]. cbn [mbind option_bind].
    rewrite Hb. cbn [default].
    split; [reflexivity |]. split; [reflexivity |]. split; [reflexivity |].
    split; [| discriminate].
    intros l' Hl'. inversion Hl'; subst l'. repeat split; destruct self, h; reflexivity.
  - inversion Hlk; subst rl self1 h1; clear Hlk.
    cbn [mbind option_bind default buckets FT.rate FT.key_handle FT.rate_limits].
    split; [apply lookup_insert_eq |]. split; [reflexivity |]. split; [reflexivity |].
    split; [discriminate |]. intros _.
    split; [reflexivity |]. split; [apply fresh_bucket_unallocated |].
    split; reflexivity.
Qed.

(** One evaluation, step by step. *)
Lemma filter_throttle_eval_run t_new t_fill self h (msgs : list LogMessage)
    (num_msg : Z) key :
  filter_throttle_key self msgs num_msg = Some key →
  ∀ rl self1 h1, filter_throttle_lookup t_new self h key = (rl, self1, h1) →
  ∀ b0, buckets h1 !! rl = Some b0 →
    filter_throttle_eval t_new t_fill self h msgs num_msg
      = Some (fst (throttle_ratelimit_process_new_logs t_fill b0 num_msg),
              self1,
              {| buckets :=
                   <[rl := snd (throttle_ratelimit_process_new_logs t_fill b0 num_msg)]>
                     (buckets h1) |}).
Proof.
  intros Hkey rl self1 h1 Hlk b0 Hb0.
  unfold filter_throttle_eval. rewrite Hkey. cbn [mbind option_bind].
  rewrite Hlk, Hb0. cbn [mbind option_bind].
  destruct (throttle_ratelimit_process_new_logs t_fill b0 num_msg); reflexivity.
Qed.

(** X5: an evaluation whose batch has key [k] (a C string: the value of
    the last record cut at its first NUL byte) applies [process] with the
    batch size to the bucket of [k], a new full bucket when [k] has none,
    stores the outcome under [k] and returns the verdict of [process]; the
    rate and the key field of the filter are unchanged. *)
Theorem eval_applies_process t_new t_fill self h (msgs : list LogMessage)
    (num_msg : Z) (k : string)
  (Hwf : table_wf self h)
  (Hkey : filter_throttle_key self msgs num_msg = Some k) :
  let b0 := default (throttle_ratelimit_new t_new (FT.rate self)) (bucket_of self h k) in
  let p := throttle_ratelimit_process_new_logs t_fill b0 num_msg in
  ∃ self' h',
    filter_throttle_eval t_new t_fill self h msgs num_msg = Some (fst p, self', h') ∧
    bucket_of self' h' k = Some (snd p) ∧
    FT.rate self' = FT.rate self ∧
    FT.key_handle self' = FT.key_handle self.
Proof.
  cbv zeta.
  pose proof (filter_throttle_key_c_string self msgs num_msg k Hkey) as Hc.
  destruct (filter_throttle_lookup t_new self h k) as [[rl self1] h1] eqn:Hlk.
  destruct (filter_throttle_lookup_cases t_new self h k Hc Hwf rl self1 h1 Hlk)
    as (Hb0 & Hrate & Hhandle & _ & _).
  destruct (filter_throttle_lookup_spec t_new self h k Hc Hwf rl self1 h1 Hlk)
    as (_ & Hk & _).
  eexists self1, _. split.
  { apply (filter_throttle_eval_run _ _ _ _ _ _ _ Hkey _ _ _ Hlk _ Hb0). }
  split; [| split; assumption].
  unfold bucket_of, g_hash_table_lookup. rewrite Hc, Hk.
  cbn [mbind option_bind buckets].
  apply lookup_insert_eq.
Qed.

Lemma eval_applies_process_witness :
  let t := {| tv_sec := 1700000000; tv_usec := 0 |} in
  let v := String "a"%char (String NUL (String "b"%char EmptyString)) in
  let self := {| FT.key_handle := 7%N; FT.rate := 5;
                 FT.rate_limits := {[ "a"%string := 1%positive ]} |} in
  let h := {| buckets := {[ 1%positive := {| tokens := 3; rate := 5; last_check := t |} ]} |} in
  let m := {| nv_values := {[ 7%N := v ]} |} in
  ∃ self' h',
    filter_throttle_eval t t self h [m; m] 2 = Some (true, self', h') ∧
    bucket_of self' h' "a"%string = Some {| tokens := 1; rate := 5; last_check := t |}.
Proof.
  cbv zeta.
  set (t := {| tv_sec := 1700000000; tv_usec := 0 |}).
  set (v := String "a"%char (String NUL (String "b"%char EmptyString))).
  set (self := {| FT.key_handle := 7%N; FT.rate := 5;
                  FT.rate_limits := {[ "a"%string := 1%positive ]} |}).
  set (h := {| buckets := {[ 1%positive := {| tokens := 3; rate := 5; last_check := t |} ]} |}).
  set (m := {| nv_values := {[ 7%N := v ]} |}).
  assert (Hwf : table_wf self h) by apply table_wf_singleton.
  assert (Hkey : filter_throttle_key self [m; m] 2 = Some "a"%string)
    by (vm_compute; reflexivity).
  destruct (eval_applies_process t t self h [m; m] 2 "a"%string Hwf Hkey)
    as (self' & h' & Hev & Hb & _).
  exists self', h'. split.
  - rewrite Hev. vm_compute. reflexivity.
  - rewrite Hb. vm_compute. reflexivity.
Defined.

(** X6: an evaluation never removes a key and never moves a key to
    another bucket: afterwards the keys of the table are the old ones and
    the key of the batch (a C string), and every old binding is as it
    was. *)
Theorem eval_keys_persist t_new t_fill self h (msgs : list LogMessage)
    (num_msg : Z) (k : string)
  (Hwf : table_wf self h)
  (Hkey : filter_throttle_key self msgs num_msg = Some k) :
  ∃ verdict self' h',
    filter_throttle_eval t_new t_fill self h msgs num_msg = Some (verdict, self', h') ∧
    dom (FT.rate_limits self') = {[k]} ∪ dom (FT.rate_limits self) ∧
    ∀ k' l, FT.rate_limits self !! k' = Some l → FT.rate_limits self' !! k' = Some l.
Proof.
  pose proof (filter_throttle_key_c_string self msgs num_msg k Hkey) as Hc.
  destruct (filter_throttle_lookup t_new self h k) as [[rl self1] h1] eqn:Hlk.
  destruct (filter_throttle_lookup_cases t_new self h k Hc Hwf rl self1 h1 Hlk)
    as (Hb0 & _ & _ & Hold & Hnew).
  eexists _, self1, _. split.
  { apply (filter_throttle_eval_run _ _ _ _ _ _ _ Hkey _ _ _ Hlk _ Hb0). }
  destruct (FT.rate_limits self !! k) as [l |] eqn:Hk.
  - destruct (Hold l eq_refl) as (_ & -> & _).
    split; [| intros k' l' Hl'; exact Hl'].
    assert (Hin : k ∈ dom (FT.rate_limits self)) by (apply elem_of_dom; eauto).
    apply set_eq. intros x. rewrite elem_of_union, elem_of_singleton.
    split; [tauto | intros [-> | Hx]; assumption].
  - destruct (Hnew eq_refl) as (_ & _ & Htab & _). rewrite Htab.
    split; [apply dom_insert_L |].
    intros k' l' Hl'. rewrite lookup_insert_ne; [exact Hl' |]. congruence.
Qed.

Lemma eval_keys_persist_witness :
  let t := {| tv_sec := 1700000000; tv_usec := 0 |} in
  let self := {| FT.key_handle := 7%N; FT.rate := 5;
                 FT.rate_limits := {[ "beta"%string := 1%positive ]} |} in
  let h := {| buckets := {[ 1%positive := {| tokens := 2; rate := 5; last_check := t |} ]} |} in
  let m := {| nv_values := {[ 7%N := "alpha"%string ]} |} in
  ∃ verdict self' h',
    filter_throttle_eval t t self h [m] 1 = Some (verdict, self', h') ∧
    dom (FT.rate_limits self') = {[ "alpha"%string ]} ∪ {[ "beta"%string ]} ∧
    FT.rate_limits self' !! "beta"%string = Some 1%positive.
Proof.
  cbv zeta.
  set (t := {| tv_sec := 1700000000; tv_usec := 0 |}).
  set (self := {| FT.key_handle := 7%N; FT.rate := 5;
                  FT.rate_limits := {[ "beta"%string := 1%positive ]} |}).
  set (h := {| buckets := {[ 1%positive := {| tokens := 2; rate := 5; last_check := t |} ]} |}).
  set (m := {| nv_values := {[ 7%N := "alpha"%string ]} |}).
  assert (Hwf : table_wf self h) by apply table_wf_singleton.
  assert (Hkey : filter_throttle_key self [m] 1 = Some "alpha"%string)
    by (vm_compute; reflexivity).
  destruct (eval_keys_persist t t self h [m] 1 "alpha"%string Hwf Hkey)
    as (v & self' & h' & Hev & Hdom & Hold).
  exists v, self', h'. split; [exact Hev |]. split.
  - rewrite Hdom. cbn [FT.rate_limits self]. rewrite dom_singleton_L. reflexivity.
  - apply Hold. apply lookup_singleton_eq.
Defined.

(** X7: an evaluation allocates a bucket only for a key (a C string)
    that the table does not have: for a known key the table is unchanged
    and no location is allocated; for a new key exactly one binding and
    one bucket are added. *)
Theorem eval_allocates_once t_new t_fill self h (msgs : list LogMessage)
    (num_msg : Z) (k : string)
  (Hwf : table_wf self h)
  (Hkey : filter_throttle_key self msgs num_msg = Some k) :
  ∃ verdict self' h',
    filter_throttle_eval t_new t_fill self h msgs num_msg = Some (verdict, self', h') ∧
    (is_Some (FT.rate_limits self !! k) →
       self' = self ∧ dom (buckets h') = dom (buckets h)) ∧
    (FT.rate_limits self !! k = None →
       size (FT.rate_limits self') = S (size (FT.rate_limits self)) ∧
       size (buckets h') = S (size (buckets h))).
Proof.
  pose proof (filter_throttle_key_c_string self msgs num_msg k Hkey) as Hc.
  destruct (filter_throttle_lookup t_new self h k) as [[rl self1] h1] eqn:Hlk.
  destruct (filter_throttle_lookup_cases t_new self h k Hc Hwf rl self1 h1 Hlk)
    as (Hb0 & _ & _ & Hold & Hnew).
  eexists _, self1, _. split.
  { apply (filter_throttle_eval_run _ _ _ _ _ _ _ Hkey _ _ _ Hlk _ Hb0). }
  cbn [buckets]. split.
  - intros [l Hl]. destruct (Hold l Hl) as (-> & -> & ->).
    split; [reflexivity |].
    rewrite dom_insert_L.
    assert (Hin : l ∈ dom (buckets h)) by (apply elem_of_dom; eauto).
    apply set_eq. intros x. rewrite elem_of_union, elem_of_singleton.
    split; [intros [-> | Hx]; assumption | tauto].
  - intros Hnone. destruct (Hnew Hnone) as (_ & Hfresh & Htab & Hheap).
    rewrite Htab, Hheap, insert_insert_eq.
    split; apply map_size_insert_None; assumption.
Qed.

Lemma eval_allocates_once_witness :
  let t := {| tv_sec := 1700000000; tv_usec := 0 |} in
  let self := {| FT.key_handle := 7%N; FT.rate := 5;
                 FT.rate_limits := {[ "beta"%string := 1%positive ]} |} in
  let h := {| buckets := {[ 1%positive := {| tokens := 2; rate := 5; last_check := t |} ]} |} in
  let known := {| nv_values := {[ 7%N := "beta"%string ]} |} in
  let new := {| nv_values := {[ 7%N := "alpha"%string ]} |} in
  (∃ verdict self' h',
     filter_throttle_eval t t self h [known] 1 = Some (verdict, self', h') ∧
     self' = self ∧ dom (buckets h') = dom (buckets h)) ∧
  (∃ verdict self' h',
     filter_throttle_eval t t self h [new] 1 = Some (verdict, self', h') ∧
     size (FT.rate_limits self') = 2%nat ∧ size (buckets h') = 2%nat).
Proof.
  cbv zeta.
  set (t := {| tv_sec := 1700000000; tv_usec := 0 |}).
  set (self := {| FT.key_handle := 7%N; FT.rate := 5;
                  FT.rate_limits := {[ "beta"%string := 1%positive ]} |}).
  set (h := {| buckets := {[ 1%positive := {| tokens := 2; rate := 5; last_check := t |} ]} |}).
  set (known := {| nv_values := {[ 7%N := "beta"%string ]} |}).
  set (new := {| nv_values := {[ 7%N := "alpha"%string ]} |}).
  assert (Hwf : table_wf self h) by apply table_wf_singleton.
  split.
  - assert (Hkey : filter_throttle_key self [known] 1 = Some "beta"%string)
      by (vm_compute; reflexivity).
    destruct (eval_allocates_once t t self h [known] 1 "beta"%string Hwf Hkey)
      as (v & self' & h' & Hev & Hknown & _).
    exists v, self', h'. split; [exact Hev |].
    apply Hknown. exists 1%positive. apply lookup_singleton_eq.
  - assert (Hkey : filter_throttle_key self [new] 1 = Some "alpha"%string)
      by (vm_compute; reflexivity).
    destruct (eval_allocates_once t t self h [new] 1 "alpha"%string Hwf Hkey)
      as (v & self' & h' & Hev & _ & Hnew).
    exists v, self', h'. split; [exact Hev |].
    assert (Hnone : FT.rate_limits self !! "alpha"%string = None)
      by (apply lookup_singleton_ne; discriminate).
    destruct (Hnew Hnone) as [H1 H2].
    rewrite H1, H2. cbn [FT.rate_limits buckets self h].
    rewrite !map_size_singleton. split; reflexivity.
Defined.

(** A refill with a clock reading in range leaves a full bucket full. *)
Lemma add_new_tokens_full t b :
  0 <= rate b → in_gint (rate b) → tokens b = rate b → refill_clock_ok b t →
  tokens (throttle_ratelimit_add_new_tokens t b) = rate b ∧
  rate (throttle_ratelimit_add_new_tokens t b) = rate b.
Proof.
  intros Hr Hgint Hfull (HT & Hmul & Hsum).
  split; [| apply add_new_tokens_rate].
  assert (Hq : 0 <= spec_new_tokens (g_time_val_diff t (last_check b)) (rate b)).
  { unfold spec_new_tokens. apply Z.div_pos; [| lia].
    apply Z.mul_nonneg_nonneg; assumption. }
  destruct (add_new_tokens_exact t b Hr HT Hmul) as [Hpos Hzero].
  { rewrite Hfull. exact Hgint. }
  { lia. }
  { lia. }
  destruct (Z.eq_dec (spec_new_tokens (g_time_val_diff t (last_check b)) (rate b)) 0)
    as [H0 | Hne].
  - rewrite (Hzero H0). exact Hfull.
  - rewrite Hpos by lia. cbn [tokens]. lia.
Qed.

(** [process] on a full bucket with a clock reading in range. *)
Lemma process_full_bucket t b (n : Z) :
  0 <= rate b → in_gint (rate b) → tokens b = rate b → refill_clock_ok b t → 0 <= n →
  fst (throttle_ratelimit_process_new_logs t b n) = (rate b >=? n) ∧
  rate (snd (throttle_ratelimit_process_new_logs t b n)) = rate b ∧
  tokens (snd (throttle_ratelimit_process_new_logs t b n))
    = if rate b >=? n then rate b - n else rate b.
Proof.
  intros Hr Hgint Hfull Hclock Hn.
  destruct (add_new_tokens_full t b Hr Hgint Hfull Hclock) as [Htok Hrate].
  unfold throttle_ratelimit_process_new_logs.
  generalize dependent (throttle_ratelimit_add_new_tokens t b). intros b1 Htok Hrate.
  unfold throttle_ratelimit_try_consume_tokens. rewrite Htok.
  apply in_gint_elim in Hgint.
  destruct (Z.geb_spec (rate b) n) as [Hge | Hlt]; cbn [fst snd tokens rate].
  - split; [reflexivity |]. split; [exact Hrate |].
    apply to_gint_id, in_gint_intro. lia.
  - split; [reflexivity |]. split; [exact Hrate | exact Htok].
Qed.

(** X8: the first batch of a key (a C string) that the table does not
    have yet is accepted exactly when its size is at most the rate of the
    filter, and
    then the new bucket keeps [rate - size] tokens; a rejected first batch
    leaves the new bucket full.  The clock reading of the refill is not
    before the one of the creation and in range. *)
Theorem first_batch_verdict t_new t_fill self h (msgs : list LogMessage)
    (num_msg : Z) (k : string)
  (Hwf : table_wf self h)
  (Hkey : filter_throttle_key self msgs num_msg = Some k)
  (Hnew : FT.rate_limits self !! k = None)
  (Hrate : 0 <= FT.rate self)
  (Hgint : in_gint (FT.rate self))
  (Hsize : 0 <= num_msg)
  (Hclock : refill_clock_ok (throttle_ratelimit_new t_new (FT.rate self)) t_fill) :
  ∃ self' h' b,
    filter_throttle_eval t_new t_fill self h msgs num_msg
      = Some (FT.rate self >=? num_msg, self', h') ∧
    bucket_of self' h' k = Some b ∧
    rate b = FT.rate self ∧
    tokens b = if FT.rate self >=? num_msg then FT.rate self - num_msg else FT.rate self.
Proof.
  pose proof (filter_throttle_key_c_string self msgs num_msg k Hkey) as Hc.
  destruct (filter_throttle_lookup t_new self h k) as [[rl self1] h1] eqn:Hlk.
  destruct (filter_throttle_lookup_cases t_new self h k Hc Hwf rl self1 h1 Hlk)
    as (Hb0 & _ & _ & _ & _).
  destruct (filter_throttle_lookup_spec t_new self h k Hc Hwf rl self1 h1 Hlk)
    as (_ & Hk & _).
  assert (Hnone : bucket_of self h k = None)
    by (unfold bucket_of, g_hash_table_lookup; rewrite Hc, Hnew; reflexivity).
  rewrite Hnone in Hb0. cbn [default] in Hb0.
  pose proof (filter_throttle_eval_run t_new t_fill self h msgs num_msg k Hkey
                rl self1 h1 Hlk _ Hb0) as Hev.
  destruct (process_full_bucket t_fill (throttle_ratelimit_new t_new (FT.rate self))
              num_msg Hrate Hgint eq_refl Hclock Hsize) as (Hv & Hr & Htok).
  rewrite Hv in Hev.
  eexists self1, _, _. split; [exact Hev |].
  split; [unfold bucket_of, g_hash_table_lookup; rewrite Hc, Hk;
          cbn [mbind option_bind buckets]; apply lookup_insert_eq |].
  split; [exact Hr | exact Htok].
Qed.

Lemma first_batch_verdict_witness :
  let t0 := {| tv_sec := 1700000000; tv_usec := 0 |} in
  let t1 := {| tv_sec := 1700000000; tv_usec := 20 |} in
  let self := {| FT.key_handle := 7%N; FT.rate := 5;
                 FT.rate_limits := {[ "beta"%string := 1%positive ]} |} in
  let h := {| buckets := {[ 1%positive := {| tokens := 0; rate := 5; last_check := t0 |} ]} |} in
  let m := {| nv_values :=
                {[ 7%N := String "a"%char (String NUL (String "b"%char EmptyString)) ]} |} in
  ∃ self' h' b,
    filter_throttle_eval t0 t1 self h [m; m; m; m; m; m] 6 = Some (false, self', h') ∧
    bucket_of self' h' "a"%string = Some b ∧ tokens b = 5.
Proof.
  cbv zeta.
  set (t0 := {| tv_sec := 1700000000; tv_usec := 0 |}).
  set (t1 := {| tv_sec := 1700000000; tv_usec := 20 |}).
  set (self := {| FT.key_handle := 7%N; FT.rate := 5;
                  FT.rate_limits := {[ "beta"%string := 1%positive ]} |}).
  set (h := {| buckets := {[ 1%positive := {| tokens := 0; rate := 5; last_check := t0 |} ]} |}).
  set (m := {| nv_values :=
                 {[ 7%N := String "a"%char (String NUL (String "b"%char EmptyString)) ]} |}).
  assert (Hwf : table_wf self h) by apply table_wf_singleton.
  assert (Hkey : filter_throttle_key self [m; m; m; m; m; m] 6 = Some "a"%string)
    by (vm_compute; reflexivity).
  assert (Hnew : FT.rate_limits self !! "a"%string = None)
    by (apply lookup_singleton_ne; discriminate).
  assert (Hrate : 0 <= FT.rate self) by (cbn; lia).
  assert (Hgint : in_gint (FT.rate self)) by (apply in_gint_intro; cbn; lia).
  assert (Hsize : 0 <= 6) by lia.
  assert (Hclock : refill_clock_ok (throttle_ratelimit_new t0 (FT.rate self)) t1).
  { unfold refill_clock_ok. cbv zeta.
    split; [vm_compute; discriminate |]. split; vm_compute; discriminate. }
  destruct (first_batch_verdict t0 t1 self h [m; m; m; m; m; m] 6 "a"%string
              Hwf Hkey Hnew Hrate Hgint Hsize Hclock)
    as (self' & h' & b & Hev & Hb & _ & Htok).
  exists self', h', b. split; [exact Hev |]. split; [exact Hb | exact Htok].
Defined.

(** X9: [filter_throttle_init] accepts a filter exactly when a positive
    rate has been set on it: a new filter is rejected, setting the key
    does not matter, and the last rate that was set decides. *)
Theorem init_requires_positive_rate (r r' : Z) (key_handle : NVHandle) :
  filter_throttle_init filter_throttle_new = false ∧
  filter_throttle_init (filter_throttle_set_key filter_throttle_new key_handle) = false ∧
  (filter_throttle_init
     (filter_throttle_set_key (filter_throttle_set_rate filter_throttle_new r) key_handle)
   = true ↔ 0 < r) ∧
  (filter_throttle_init
     (filter_throttle_set_rate (filter_throttle_set_key filter_throttle_new key_handle) r)
   = true ↔ 0 < r) ∧
  (filter_throttle_init
     (filter_throttle_set_rate (filter_throttle_set_rate filter_throttle_new r') r)
   = true ↔ 0 < r).
Proof.
  unfold filter_throttle_init, filter_throttle_set_rate, filter_throttle_set_key.
  cbn [FT.rate filter_throttle_new].
  split; [reflexivity |]. split; [reflexivity |].
  destruct (Z.leb_spec r 0); repeat split; intros; try lia; try reflexivity;
    discriminate.
Qed.

Lemma array_get_None {A : Type} (a : list A) (i : Z) :
  array_get a i = None ↔ ¬ (0 <= i < Z.of_nat (length a)).
Proof.
  unfold array_get. destruct (Z.ltb_spec i 0) as [Hneg | Hpos].
  - split; [lia | reflexivity].
  - rewrite lookup_ge_None. lia.
Qed.

(** X10: on a well-formed table the only way an evaluation is undefined
    is the read of [msgs[num_msg - 1]] outside the batch, which happens
    exactly when a key field is configured and [num_msg] is not between 1
    and the number of records; without a key field every batch size is
    evaluated. *)
Theorem eval_defined_iff t_new t_fill self h (msgs : list LogMessage) (num_msg : Z)
  (Hwf : table_wf self h) :
  filter_throttle_eval t_new t_fill self h msgs num_msg = None
  ↔ FT.key_handle self ≠ 0%N ∧ ¬ (1 <= num_msg <= Z.of_nat (length msgs)).
Proof.
  destruct (filter_throttle_key self msgs num_msg) as [k |] eqn:Hkey.
  - pose proof (filter_throttle_key_c_string self msgs num_msg k Hkey) as Hc.
    destruct (filter_throttle_lookup t_new self h k) as [[rl self1] h1] eqn:Hlk.
    destruct (filter_throttle_lookup_cases t_new self h k Hc Hwf rl self1 h1 Hlk)
      as (Hb0 & _).
    rewrite (filter_throttle_eval_run _ _ _ _ _ _ _ Hkey _ _ _ Hlk _ Hb0).
    split; [discriminate |]. intros [Hh Hrange]. exfalso.
    unfold filter_throttle_key in Hkey.
    destruct (N.eqb_spec (FT.key_handle self) 0) as [| _]; [contradiction |].
    destruct (array_get msgs (num_msg - 1)) eqn:Hget; [| discriminate].
    assert (Hnone : array_get msgs (num_msg - 1) ≠ None) by congruence.
    rewrite array_get_None in Hnone. lia.
  - unfold filter_throttle_eval. rewrite Hkey. cbn [mbind option_bind].
    split; [intros _ | reflexivity].
    unfold filter_throttle_key in Hkey.
    destruct (N.eqb_spec (FT.key_handle self) 0) as [| Hne]; [discriminate |].
    split; [exact Hne |].
    destruct (array_get msgs (num_msg - 1)) eqn:Hget; [discriminate |].
    rewrite array_get_None in Hget. lia.
Qed.

Lemma eval_defined_iff_witness :
  let t := {| tv_sec := 1700000000; tv_usec := 0 |} in
  let self := {| FT.key_handle := 7%N; FT.rate := 5; FT.rate_limits := ∅ |} in
  filter_throttle_eval t t self {| buckets := ∅ |} [] 0 = None.
Proof.
  cbv zeta.
  apply (eval_defined_iff _ _
           {| FT.key_handle := 7%N; FT.rate := 5; FT.rate_limits := ∅ |}
           {| buckets := ∅ |} [] 0).
  - repeat split; cbn.
    + intros k l Hk. rewrite lookup_empty in Hk. discriminate.
    + intros k1 k2 l Hk. rewrite lookup_empty in Hk. discriminate.
    + intros l [b Hb]. rewrite lookup_empty in Hb. discriminate.
  - split; [discriminate | cbn [length]; lia].
Defined.

End ThrottleEvaluatorMore.

(** * Further properties of the statistics *)

Section StatsMore.

Implicit Types (o : StatsOptions) (sc : StatsCluster) (st : StatsTimerState).

(** X11: expiry is monotone in time: a cluster that is expired at some
    time is expired at every later time (both subtractions
    [now - lifetime] being defined). *)
Theorem is_expired_monotone o sc (n n' : Z)
  (Hdef : in_glong (n - lifetime o))
  (Hdef' : in_glong (n' - lifetime o))
  (Hlater : n <= n')
  (Hexp : stats_counter_is_expired (Some o) sc n = Some true) :
  stats_counter_is_expired (Some o) sc n' = Some true.
Proof.
  rewrite stats_counter_is_expired_total in *.
  rewrite (to_time_t_id _ Hdef) in Hexp. rewrite (to_time_t_id _ Hdef').
  assert (Hb : dynamic sc && negb (ref_cnt sc >? 0)
               && Z.testbit (live_mask sc) SC_TYPE_STAMP
               && (timestamp_of sc <=? n - lifetime o) = true) by congruence.
  apply andb_true_iff in Hb. destruct Hb as [Hpre Hle].
  rewrite Hpre. cbn [andb]. f_equal.
  apply Z.leb_le. apply Z.leb_le in Hle. lia.
Qed.

Lemma is_expired_monotone_witness :
  let o := {| level := 0; log_freq := 600; lifetime := 600 |} in
  stats_counter_is_expired (Some o) (stamped_cluster "conn" 1699999400 true 0) 1700000060
    = Some true.
Proof.
  cbv zeta.
  assert (H1 : in_glong (1700000000 - 600)) by (apply in_glong_intro; lia).
  assert (H2 : in_glong (1700000060 - 600)) by (apply in_glong_intro; lia).
  assert (H3 : 1700000000 <= 1700000060) by lia.
  apply (is_expired_monotone {| level := 0; log_freq := 600; lifetime := 600 |}
           (stamped_cluster "conn" 1699999400 true 0) 1700000000 1700000060 H1 H2 H3).
  vm_compute. reflexivity.
Defined.

Lemma format_fold (registry : list StatsCluster) : ∀ e : EVTREC,
  fold_left (λ ev sc, stats_log_format_cluster sc ev) registry (Some e)
    = Some {| ev_desc := ev_desc e; ev_clusters := ev_clusters e ++ registry |}.
Proof.
  induction registry as [| sc rest IH]; intros e; cbn [fold_left].
  - rewrite app_nil_r. destruct e; reflexivity.
  - cbn [stats_log_format_cluster]. rewrite IH.
    cbn [ev_desc ev_clusters]. rewrite <- app_assoc. reflexivity.
Qed.

Lemma format_fold_none (registry : list StatsCluster) :
  fold_left (λ ev sc, stats_log_format_cluster sc ev) registry None = None.
Proof. induction registry as [| sc rest IH]; [reflexivity | exact IH]. Qed.

(** The traversal without any bound on the number of clusters: what is
    kept, what is formatted, and that the aggregates do not move when no
    cluster is expired. *)
Lemma stats_foreach_cluster_remove_kept o t registry : ∀ st,
  now st = t →
  ∃ registry' st',
    stats_foreach_cluster_remove (stats_format_and_prune_cluster (Some o)) registry st
      = Some (registry', st') ∧
    now st' = t ∧
    registry' = List.filter (λ sc, negb (is_expired (Some o) t sc)) registry ∧
    stats_event st'
      = fold_left (λ ev sc, stats_log_format_cluster sc ev) registry (stats_event st) ∧
    ((∀ sc, In sc registry → is_expired (Some o) t sc = false) →
     dropped_counters st' = dropped_counters st ∧
     oldest_counter st' = oldest_counter st).
Proof.
  induction registry as [| sc rest IH]; intros st Hnow.
  - exists [], st. cbn. repeat split; try reflexivity; assumption.
  - cbn [stats_foreach_cluster_remove].
    rewrite stats_format_and_prune_cluster_step, Hnow.
    cbn [List.filter fold_left].
    match goal with
    | |- context [stats_foreach_cluster_remove _ rest ?s] =>
        destruct (IH s) as (reg' & st' & Hrun & Hnow' & Hreg & Hev & Hnone);
          [reflexivity | rewrite Hrun]
    end.
    cbn [stats_event dropped_counters oldest_counter] in Hev, Hnone.
    destruct (is_expired (Some o) t sc) eqn:Hexp; cbn [negb].
    + exists reg', st'. split; [reflexivity |]. split; [exact Hnow' |].
      split; [exact Hreg |]. split; [exact Hev |].
      intros Hall. rewrite (Hall sc (or_introl eq_refl)) in Hexp. discriminate.
    + exists (sc :: reg'), st'. split; [reflexivity |]. split; [exact Hnow' |].
      split; [rewrite Hreg; reflexivity |]. split; [exact Hev |].
      intros Hall. apply Hnone. intros sc' Hin. apply Hall. right. exact Hin.
Qed.

(** One pass with installed options, without any bound on the number of
    clusters. *)
Lemma stats_publish_and_prune_counters_kept o (t : GTimeVal)
    (registry : list StatsCluster) :
  ∃ r,
    stats_publish_and_prune_counters (Some o) t registry = Some r ∧
    pass_registry r = List.filter (λ sc, negb (is_expired (Some o) t sc)) registry ∧
    pass_published r
      = (if log_freq o >? 0
         then Some {| ev_desc := "Log statistics"; ev_clusters := registry |}
         else None) ∧
    ((∀ sc, In sc registry → is_expired (Some o) t sc = false) →
     dropped_counters (pass_state r) = 0 ∧ pass_notice r = None).
Proof.
  unfold stats_publish_and_prune_counters. cbn [mbind option_bind].
  match goal with
  | |- context [stats_foreach_cluster_remove _ registry ?s] =>
      destruct (stats_foreach_cluster_remove_kept o t registry s)
        as (reg' & st' & Hrun & _ & Hreg & Hev & Hnone);
        [reflexivity | rewrite Hrun]
  end.
  cbn [mbind option_bind]. eexists. split; [reflexivity |].
  cbn [pass_registry pass_published pass_state pass_notice fst snd].
  cbn [stats_event dropped_counters oldest_counter] in Hev, Hnone.
  split; [exact Hreg |]. split.
  - rewrite Hev. destruct (log_freq o >? 0); [| reflexivity].
    rewrite format_fold. reflexivity.
  - intros Hall. destruct (Hnone Hall) as [Hd _]. rewrite Hd.
    split; reflexivity.
Qed.

(** X12: the pass removes exactly the expired clusters; a cluster that is
    not dynamic, or is referenced, or has no timestamp counter is never
    removed, however old its timestamp is. *)
Theorem pass_keeps_protected_clusters o (t : GTimeVal) (registry : list StatsCluster) :
  ∃ r,
    stats_publish_and_prune_counters (Some o) t registry = Some r ∧
    (∀ sc, In sc (pass_registry r)
           ↔ In sc registry ∧ is_expired (Some o) t sc = false) ∧
    (∀ sc, In sc registry →
           dynamic sc = false ∨ ref_cnt sc > 0 ∨
           Z.testbit (live_mask sc) SC_TYPE_STAMP = false →
           In sc (pass_registry r)).
Proof.
  destruct (stats_publish_and_prune_counters_kept o t registry)
    as (r & Hrun & Hreg & _).
  exists r. split; [exact Hrun |].
  assert (Hin : ∀ sc, In sc (pass_registry r)
                      ↔ In sc registry ∧ is_expired (Some o) t sc = false).
  { intros sc. rewrite Hreg, List.filter_In, negb_true_iff. reflexivity. }
  split; [exact Hin |].
  intros sc Hsc Hprot. apply Hin. split; [exact Hsc |].
  unfold is_expired. rewrite stats_counter_is_expired_total.
  destruct Hprot as [-> | [Href | ->]].
  - reflexivity.
  - destruct (Z.gtb_spec (ref_cnt sc) 0); [| lia].
    cbn [negb]. rewrite andb_false_r. reflexivity.
  - rewrite andb_false_r. reflexivity.
Qed.

(** X13: a second pass at the same instant and with the same options finds
    nothing to do: it removes no cluster, counts none and reports
    nothing. *)
Theorem pass_idempotent o (t : GTimeVal) (registry : list StatsCluster) :
  ∃ r r2,
    stats_publish_and_prune_counters (Some o) t registry = Some r ∧
    stats_publish_and_prune_counters (Some o) t (pass_registry r) = Some r2 ∧
    pass_registry r2 = pass_registry r ∧
    dropped_counters (pass_state r2) = 0 ∧
    pass_notice r2 = None.
Proof.
  destruct (stats_publish_and_prune_counters_kept o t registry)
    as (r & Hrun & Hreg & _).
  destruct (stats_publish_and_prune_counters_kept o t (pass_registry r))
    as (r2 & Hrun2 & Hreg2 & _ & Hnone).
  assert (Hall : ∀ sc, In sc (pass_registry r) → is_expired (Some o) t sc = false).
  { intros sc Hin. rewrite Hreg in Hin. apply List.filter_In in Hin.
    destruct Hin as [_ Hneg]. apply negb_true_iff in Hneg. exact Hneg. }
  exists r, r2. split; [exact Hrun |]. split; [exact Hrun2 |].
  split; [| exact (Hnone Hall)].
  rewrite Hreg2. apply List.forallb_filter_id, List.forallb_forall.
  intros sc Hin. rewrite (Hall sc Hin). reflexivity.
Qed.

(** X14: the snapshot event is built and sent exactly when [log_freq] is
    positive, and then it holds every cluster that was registered when the
    pass began, in the order of the visit, the removed ones included. *)
Theorem pass_publishes_every_cluster o (t : GTimeVal) (registry : list StatsCluster) :
  ∃ r,
    stats_publish_and_prune_counters (Some o) t registry = Some r ∧
    (log_freq o > 0 →
     pass_published r
       = Some {| ev_desc := "Log statistics"; ev_clusters := registry |}) ∧
    (log_freq o <= 0 → pass_published r = None).
Proof.
  destruct (stats_publish_and_prune_counters_kept o t registry)
    as (r & Hrun & _ & Hpub & _).
  exists r. split; [exact Hrun |]. rewrite Hpub.
  destruct (Z.gtb_spec (log_freq o) 0); split; intros; try reflexivity; lia.
Qed.

(** X15: for fewer than 2^31 clusters the notice about pruning is emitted
    exactly when at least one cluster was expired, and it carries the
    number of the expired clusters. *)
Theorem pass_notice_iff_dropped o (t : GTimeVal) (registry : list StatsCluster)
  (Hlen : Z.of_nat (length registry) <= max_gint) :
  ∃ r,
    stats_publish_and_prune_counters (Some o) t registry = Some r ∧
    (pass_notice r = None
     ↔ ∀ sc, In sc registry → is_expired (Some o) t sc = false) ∧
    (∀ c ts, pass_notice r = Some (c, ts) →
             c = spec_dropped_count (Some o) t registry ∧ 0 < c).
Proof.
  unfold stats_publish_and_prune_counters. cbn [mbind option_bind].
  match goal with
  | |- context [stats_foreach_cluster_remove _ registry ?s] =>
      destruct (stats_foreach_cluster_remove_spec o t registry s)
        as (reg' & st' & Hrun & _ & _ & Hcnt & _);
        [reflexivity | cbn [dropped_counters]; lia | cbn [dropped_counters]; lia
        | rewrite Hrun]
  end.
  cbn [mbind option_bind]. eexists. split; [reflexivity |].
  cbn [pass_notice pass_state fst snd]. cbn [dropped_counters] in Hcnt.
  unfold spec_dropped_count. rewrite Hcnt. rewrite Z.add_0_l.
  set (expired := List.filter (is_expired (Some o) t) registry).
  assert (Hnil : expired = [] ↔ ∀ sc, In sc registry → is_expired (Some o) t sc = false).
  { split.
    - intros Hnil sc Hin. destruct (is_expired (Some o) t sc) eqn:Hexp; [| reflexivity].
      assert (Hsc : In sc expired) by (apply List.filter_In; split; assumption).
      rewrite Hnil in Hsc. destruct Hsc.
    - intros Hall. destruct expired as [| sc rest] eqn:Hexp; [reflexivity |].
      assert (Hsc : In sc (List.filter (is_expired (Some o) t) registry))
        by (fold expired; rewrite Hexp; left; reflexivity).
      apply List.filter_In in Hsc. destruct Hsc as [Hin Htrue].
      rewrite (Hall sc Hin) in Htrue. discriminate. }
  destruct (Z.gtb_spec (Z.of_nat (length expired)) 0) as [Hpos | Hzero].
  - split.
    + split; [discriminate |]. intros Hall. apply Hnil in Hall.
      rewrite Hall in Hpos. cbn [length] in Hpos. lia.
    + intros c ts Heq. inversion Heq; subst. split; [reflexivity | lia].
  - split; [| discriminate].
    split; [| reflexivity]. intros _. apply Hnil.
    destruct expired; [reflexivity | cbn [length] in Hzero; lia].
Qed.

Lemma pass_notice_iff_dropped_witness :
  let o := {| level := 0; log_freq := 10; lifetime := 600 |} in
  let t := {| tv_sec := 1700000000; tv_usec := 0 |} in
  let registry := [stamped_cluster "conn" (1700000000 - 601) true 0;
                   stamped_cluster "center" 1 false 0] in
  ∃ r ts,
    stats_publish_and_prune_counters (Some o) t registry = Some r ∧
    pass_notice r = Some (1, ts).
Proof.
  cbv zeta.
  set (o := {| level := 0; log_freq := 10; lifetime := 600 |}).
  set (t := {| tv_sec := 1700000000; tv_usec := 0 |}).
  set (registry := [stamped_cluster "conn" (1700000000 - 601) true 0;
                    stamped_cluster "center" 1 false 0]).
  assert (Hlen : Z.of_nat (length registry) <= max_gint) by (vm_compute; discriminate).
  destruct (pass_notice_iff_dropped o t registry Hlen) as (r & Hrun & Hnone & Hsome).
  destruct (pass_notice r) as [[c ts] |] eqn:Hn.
  - exists r, ts. split; [exact Hrun |].
    destruct (Hsome c ts eq_refl) as [Hc _].
    assert (H1 : c = 1) by (rewrite Hc; vm_compute; reflexivity).
    rewrite Hn, H1. reflexivity.
  - exfalso.
    assert (Hfalse : is_expired (Some o) t (stamped_cluster "conn" (1700000000 - 601) true 0)
                     = false).
    { apply (proj1 Hnone eq_refl). left. reflexivity. }
    vm_compute in Hfalse. discriminate.
Defined.

(** *** The timer *)

(** X16: killing the timer is idempotent; it disarms an initialised timer
    and changes neither its interval nor its expiry time.  A timer that was
    never initialised (no handler) is left alone. *)
Theorem stats_timer_kill_idempotent (timer : iv_timer) :
  stats_timer_kill (stats_timer_kill timer) = stats_timer_kill timer ∧
  cookie (stats_timer_kill timer) = cookie timer ∧
  expires (stats_timer_kill timer) = expires timer ∧
  handler (stats_timer_kill timer) = handler timer ∧
  registered (stats_timer_kill timer) = registered timer && negb (handler timer).
Proof.
  unfold stats_timer_kill.
  destruct timer as [hd ck rg ex]. cbn [handler cookie registered expires].
  destruct hd, rg; cbn; repeat split; reflexivity.
Qed.

(** X17: [stats_timer_reinit] leaves the timer armed exactly when the
    interval it computed is positive: always when [log_freq >= 0], never
    when [log_freq] is negative, in which case neither publishing nor
    pruning will run.  An armed timer does not depend on the timer that was
    there before (the schedule is replaced), and for an interval of at
    most 2147483 seconds it expires [interval * 1000] milliseconds after
    the current time of the event loop. *)
Theorem stats_timer_reinit_armed o (iv_now : Z) (timer : iv_timer) :
  ∃ timer',
    stats_timer_reinit (Some o) iv_now timer = Some timer' ∧
    handler timer' = true ∧
    registered timer' = (stats_timer_freq o >? 0) ∧
    (0 <= log_freq o → registered timer' = true) ∧
    (log_freq o < 0 → registered timer' = false) ∧
    (0 < stats_timer_freq o →
     ∀ timer2, stats_timer_reinit (Some o) iv_now timer2 = Some timer') ∧
    (0 < stats_timer_freq o <= 2147483 →
     expires timer' = iv_now + stats_timer_freq o * 1000 ∧ iv_now < expires timer').
Proof.
  unfold stats_timer_reinit. cbn [mbind option_bind]. eexists.
  split; [reflexivity |].
  unfold stats_timer_rearm, stats_timer_init. cbn [cookie].
  assert (Hfreq : 0 <= log_freq o → 0 < stats_timer_freq o).
  { intros Hlog. unfold stats_timer_freq.
    destruct (Z.eqb_spec (log_freq o) 0) as [H0 | Hne]; [| lia].
    destruct (Z.leb_spec (lifetime o) 1); [lia |].
    apply Z.quot_str_pos. lia. }
  assert (Hneg : log_freq o < 0 → stats_timer_freq o <= 0).
  { intros Hlog. unfold stats_timer_freq.
    destruct (Z.eqb_spec (log_freq o) 0) as [H0 | Hne]; lia. }
  destruct (Z.gtb_spec (stats_timer_freq o) 0) as [Hpos | Hle];
    cbn [handler registered expires cookie].
  - split; [reflexivity |]. split; [reflexivity |]. split; [reflexivity |].
    split; [intros Hlog; specialize (Hneg Hlog); lia |].
    split.
    + intros _ timer2. destruct (Z.gtb_spec (stats_timer_freq o) 0); [| lia].
      reflexivity.
    + intros [_ Hmax].
      rewrite to_gint_id by (apply in_gint_intro; lia). lia.
  - split; [reflexivity |]. split; [reflexivity |].
    split; [intros Hlog; specialize (Hfreq Hlog); lia |].
    split; [reflexivity |]. split; intros; lia.
Qed.

(** X18: the handler of the timer runs one pass and arms the timer again
    with the interval it had: once [stats_reinit] has installed options
    with [log_freq >= 0], every firing leaves the options installed, the
    interval equal to the effective interval and the timer armed. *)
Theorem stats_timer_elapsed_rearms o (g : StatsGlobals) (t : GTimeVal) (iv_now : Z)
    (registry : list StatsCluster)
  (Hopts : stats_options g = Some o)
  (Hcookie : cookie (stats_timer g) = spec_effective_interval o)
  (Hlog : 0 <= log_freq o) :
  (∀ g0 iv0, ∃ g1,
     stats_reinit g0 o iv0 = Some g1 ∧
     stats_options g1 = Some o ∧
     cookie (stats_timer g1) = spec_effective_interval o) ∧
  ∃ r g',
    stats_timer_elapsed g t iv_now registry = Some (r, g') ∧
    stats_publish_and_prune_counters (Some o) t registry = Some r ∧
    stats_options g' = Some o ∧
    cookie (stats_timer g') = spec_effective_interval o ∧
    registered (stats_timer g') = true.
Proof.
  split.
  - intros g0 iv0. unfold stats_reinit, stats_timer_reinit.
    cbn [mbind option_bind]. eexists. split; [reflexivity |].
    cbn [stats_options stats_timer]. split; [reflexivity |].
    rewrite stats_timer_rearm_cookie. cbn [cookie stats_timer_init].
    apply stats_timer_freq_spec.
  - destruct (stats_publish_and_prune_counters_kept o t registry) as (r & Hrun & _).
    unfold stats_timer_elapsed. rewrite Hopts, Hrun. cbn [mbind option_bind].
    eexists r, _. split; [reflexivity |]. split; [reflexivity |].
    cbn [stats_options stats_timer]. split; [reflexivity |].
    rewrite stats_timer_rearm_cookie. split; [exact Hcookie |].
    unfold stats_timer_rearm. rewrite Hcookie.
    assert (Hpos : 0 < spec_effective_interval o).
    { unfold spec_effective_interval.
      destruct (Z.eqb_spec (log_freq o) 0); lia. }
    destruct (Z.gtb_spec (spec_effective_interval o) 0); [reflexivity | lia].
Qed.

Lemma stats_timer_elapsed_rearms_witness :
  let o := stats_options_defaults in
  let t := {| tv_sec := 1700000000; tv_usec := 0 |} in
  ∃ g r g',
    stats_reinit stats_globals_init o 1700000000000 = Some g ∧
    stats_timer_elapsed g t 1700000600000 [] = Some (r, g') ∧
    cookie (stats_timer g') = 600 ∧
    registered (stats_timer g') = true.
Proof.
  cbv zeta.
  destruct (stats_reinit stats_globals_init stats_options_defaults 1700000000000)
    as [g |] eqn:Hre; [| vm_compute in Hre; discriminate].
  assert (Hopts : stats_options g = Some stats_options_defaults).
  { vm_compute in Hre. inversion Hre. reflexivity. }
  assert (Hcookie : cookie (stats_timer g) = spec_effective_interval stats_options_defaults).
  { vm_compute in Hre. inversion Hre. reflexivity. }
  assert (Hlog : 0 <= log_freq stats_options_defaults) by (cbn; lia).
  destruct (stats_timer_elapsed_rearms stats_options_defaults g
              {| tv_sec := 1700000000; tv_usec := 0 |} 1700000600000 []
              Hopts Hcookie Hlog) as (_ & r & g' & Hel & _ & _ & Hck & Hreg).
  exists g, r, g'. split; [reflexivity |]. split; [exact Hel |].
  split; [rewrite Hck; reflexivity | exact Hreg].
Defined.

(** *** Names *)

Lemma array_get_inj (names : list string) (i j : Z) (name : string) :
  NoDup names →
  array_get names i = Some name → array_get names j = Some name → i = j.
Proof.
  unfold array_get. intros Hnodup Hi Hj.
  destruct (Z.ltb_spec i 0); [discriminate |].
  destruct (Z.ltb_spec j 0); [discriminate |].
  pose proof (NoDup_lookup names _ _ _ Hnodup Hi Hj). lia.
Qed.

Lemma tag_names_NoDup : NoDup tag_names.
Proof. refine (bool_decide_unpack (NoDup tag_names) _). vm_compute. exact I. Qed.

Lemma source_names_NoDup : NoDup source_names.
Proof. refine (bool_decide_unpack (NoDup source_names) _). vm_compute. exact I. Qed.

(** X19: the names identify what they name: [stats_get_type_name] has a
    name exactly for the five counter kinds [0 .. 4] and two kinds with
    the same name are the same kind; two sources with the same name agree
    on the bits selected by [SCS_SOURCE_MASK]. *)
Theorem stats_names_distinct :
  (∀ type, is_Some (stats_get_type_name type) ↔ 0 <= type < SC_TYPE_MAX) ∧
  (∀ type1 type2 name,
     stats_get_type_name type1 = Some name →
     stats_get_type_name type2 = Some name → type1 = type2) ∧
  (∀ mask source1 source2 name,
     stats_get_source_name mask source1 = Some name →
     stats_get_source_name mask source2 = Some name →
     Z.land source1 mask = Z.land source2 mask).
Proof.
  split; [| split].
  - intros type. unfold stats_get_type_name.
    rewrite <- not_eq_None_Some, array_get_None. unfold SC_TYPE_MAX.
    cbn [length tag_names]. lia.
  - intros type1 type2 name. apply array_get_inj, tag_names_NoDup.
  - intros mask source1 source2 name. apply array_get_inj, source_names_NoDup.
Qed.

End StatsMore.

(** * The throttle over a window of time *)

Section ThrottleWindow.

Implicit Types (self b : ThrottleRateLimit) (t : GTimeVal) (n : Z).

Lemma g_time_val_diff_usec t1 t2 :
  time_ok t1 → time_ok t2 → g_time_val_diff t1 t2 = usec_of t1 - usec_of t2.
Proof.
  unfold time_ok, g_time_val_diff, usec_of, G_USEC_PER_SEC.
  intros [Hs1 Hu1] [Hs2 Hu2].
  rewrite (to_glong_id (tv_sec t1 - tv_sec t2)) by (apply in_glong_intro; lia).
  rewrite (to_glong_id ((tv_sec t1 - tv_sec t2) * 1000000))
    by (apply in_glong_intro; lia).
  rewrite (to_glong_id (tv_usec t1 - tv_usec t2)) by (apply in_glong_intro; lia).
  rewrite to_glong_id by (apply in_glong_intro; lia). lia.
Qed.

Lemma div_add_le (a c d : Z) : 0 < d → a / d + c / d <= (a + c) / d.
Proof.
  intros Hd. apply Z.div_le_lower_bound; [exact Hd |].
  pose proof (Z.mul_div_le a d Hd). pose proof (Z.mul_div_le c d Hd). lia.
Qed.

Lemma last_usec_ge (reqs : list (GTimeVal * Z)) : ∀ prev,
  window_ok prev reqs → prev <= last_usec prev reqs.
Proof.
  induction reqs as [| [t n] rest IH]; intros prev Hok; cbn [last_usec window_ok] in *;
    [lia |].
  destruct Hok as (_ & Hprev & _ & Hrest). specialize (IH _ Hrest). lia.
Qed.

Lemma process_unfold t b n :
  throttle_ratelimit_process_new_logs t b n
    = throttle_ratelimit_try_consume_tokens (throttle_ratelimit_add_new_tokens t b) n.
Proof. reflexivity. Qed.

(** X20: inside the arithmetic of the C types, [process(n)] at a clock
    reading [T] microseconds after the last refill succeeds exactly when
    [min(capacity, tokens + floor(T * rate / 1000000)) >= n]. *)
Theorem process_verdict t b n
  (Hbounds : token_bounds b)
  (Hgint : in_gint (rate b))
  (Hclock : refill_clock_ok b t) :
  fst (throttle_ratelimit_process_new_logs t b n)
    = (Z.min (rate b)
         (tokens b + g_time_val_diff t (last_check b) * rate b / 1000000) >=? n).
Proof.
  destruct Hbounds as [Hlo Hhi]. destruct Hclock as (HT & Hmul & Hsum).
  assert (Hr : 0 <= rate b) by lia.
  pose proof (in_gint_elim _ Hgint) as Hg.
  assert (Hspec : spec_new_tokens (g_time_val_diff t (last_check b)) (rate b)
                  = g_time_val_diff t (last_check b) * rate b / 1000000)
    by reflexivity.
  rewrite <- Hspec.
  remember (spec_new_tokens (g_time_val_diff t (last_check b)) (rate b)) as new
    eqn:Hnew.
  rewrite max_gint_eq in Hsum.
  assert (Hq : 0 <= new).
  { rewrite Hspec. apply Z.div_pos; [| lia].
    apply Z.mul_nonneg_nonneg; assumption. }
  destruct (add_new_tokens_exact t b Hr HT Hmul) as [Hpos Hzero].
  { apply in_gint_intro. lia. }
  { rewrite <- Hnew, max_gint_eq. lia. }
  { rewrite <- Hnew, max_gint_eq. lia. }
  rewrite <- Hnew in Hpos, Hzero.
  rewrite process_unfold. unfold throttle_ratelimit_try_consume_tokens.
  destruct (Z.eq_dec new 0) as [H0 | Hne].
  - rewrite (Hzero H0), H0, Z.add_0_r, Z.min_r by lia.
    destruct (tokens b >=? n); reflexivity.
  - rewrite Hpos by lia. cbn [tokens].
    destruct (_ >=? n); reflexivity.
Qed.

Lemma process_verdict_witness :
  let b := {| tokens := 2; rate := 10;
              last_check := {| tv_sec := 1700000000; tv_usec := 0 |} |} in
  let t := {| tv_sec := 1700000000; tv_usec := 250000 |} in
  fst (throttle_ratelimit_process_new_logs t b 4) = true ∧
  fst (throttle_ratelimit_process_new_logs t b 5) = false.
Proof.
  cbv zeta.
  set (b := {| tokens := 2; rate := 10;
               last_check := {| tv_sec := 1700000000; tv_usec := 0 |} |}).
  set (t := {| tv_sec := 1700000000; tv_usec := 250000 |}).
  assert (H1 : token_bounds b) by (unfold token_bounds; cbn; lia).
  assert (H2 : in_gint (rate b)) by (apply in_gint_intro; cbn; lia).
  assert (H3 : refill_clock_ok b t).
  { unfold refill_clock_ok. cbv zeta.
    split; [vm_compute; discriminate |]. split; vm_compute; discriminate. }
  split.
  - rewrite (process_verdict t b 4 H1 H2 H3). vm_compute. reflexivity.
  - rewrite (process_verdict t b 5 H1 H2 H3). vm_compute. reflexivity.
Defined.

Lemma try_consume_in_range b n :
  token_bounds b → in_gint (rate b) → 0 <= n →
  (if fst (throttle_ratelimit_try_consume_tokens b n) then n else 0)
    + tokens (snd (throttle_ratelimit_try_consume_tokens b n)) = tokens b ∧
  0 <= tokens (snd (throttle_ratelimit_try_consume_tokens b n)) ∧
  rate (snd (throttle_ratelimit_try_consume_tokens b n)) = rate b ∧
  last_check (snd (throttle_ratelimit_try_consume_tokens b n)) = last_check b.
Proof.
  intros [Hlo Hhi] Hg Hn. apply in_gint_elim in Hg.
  unfold throttle_ratelimit_try_consume_tokens.
  destruct (Z.geb_spec (tokens b) n) as [Hge | Hlt];
    cbn [fst snd tokens rate last_check].
  - rewrite to_gint_id by (apply in_gint_intro; lia).
    repeat split; lia.
  - repeat split; lia.
Qed.

(** A refill with a forward clock reading in range: the bounds are kept,
    the time of the last refill moves forward to at most the reading, and
    the tokens gained are at most the rate times the time by which it
    moved. *)
Lemma add_new_tokens_in_window t b :
  in_gint (rate b) → token_bounds b → time_ok (last_check b) → time_ok t →
  usec_of (last_check b) <= usec_of t →
  (usec_of t - usec_of (last_check b)) * rate b <= max_glong →
  (usec_of t - usec_of (last_check b)) * rate b / 1000000 + rate b <= max_gint →
  token_bounds (throttle_ratelimit_add_new_tokens t b) ∧
  rate (throttle_ratelimit_add_new_tokens t b) = rate b ∧
  time_ok (last_check (throttle_ratelimit_add_new_tokens t b)) ∧
  usec_of (last_check b) <= usec_of (last_check (throttle_ratelimit_add_new_tokens t b))
    <= usec_of t ∧
  tokens (throttle_ratelimit_add_new_tokens t b)
    <= tokens b
       + (usec_of (last_check (throttle_ratelimit_add_new_tokens t b))
          - usec_of (last_check b)) * rate b / 1000000.
Proof.
  intros Hg [Hlo Hhi] Hlc Ht Hfwd Hmul Hsum.
  pose proof (g_time_val_diff_usec t (last_check b) Ht Hlc) as HT.
  assert (Hr : 0 <= rate b) by lia.
  pose proof (in_gint_elim _ Hg) as Hg'. rewrite max_gint_eq in Hsum.
  assert (Hspec : spec_new_tokens (g_time_val_diff t (last_check b)) (rate b)
                  = (usec_of t - usec_of (last_check b)) * rate b / 1000000)
    by (rewrite HT; reflexivity).
  remember ((usec_of t - usec_of (last_check b)) * rate b / 1000000) as new eqn:Hnew.
  assert (Hq : 0 <= new).
  { rewrite Hnew. apply Z.div_pos; [| lia]. apply Z.mul_nonneg_nonneg; lia. }
  destruct (add_new_tokens_exact t b) as [Hpos Hzero].
  { exact Hr. }
  { rewrite HT. lia. }
  { rewrite HT. exact Hmul. }
  { apply in_gint_intro. lia. }
  { rewrite Hspec, max_gint_eq. lia. }
  { rewrite Hspec, max_gint_eq. lia. }
  rewrite Hspec in Hpos, Hzero.
  destruct (Z.eq_dec new 0) as [H0 | Hne].
  - rewrite (Hzero H0). unfold token_bounds.
    rewrite Z.sub_diag, Z.mul_0_l, Zdiv_0_l.
    split; [lia |]. split; [reflexivity |]. split; [exact Hlc |].
    split; lia.
  - rewrite Hpos by lia. unfold token_bounds. cbn [tokens rate last_check].
    rewrite <- Hnew.
    split; [lia |]. split; [reflexivity |]. split; [exact Ht |].
    split; lia.
Qed.

(** One [process] call with a forward clock reading in range. *)
Lemma process_in_window t b n :
  in_gint (rate b) → token_bounds b → time_ok (last_check b) → time_ok t →
  usec_of (last_check b) <= usec_of t → 0 <= n →
  (usec_of t - usec_of (last_check b)) * rate b <= max_glong →
  (usec_of t - usec_of (last_check b)) * rate b / 1000000 + rate b <= max_gint →
  ∀ v b', throttle_ratelimit_process_new_logs t b n = (v, b') →
    token_bounds b' ∧ rate b' = rate b ∧ time_ok (last_check b') ∧
    usec_of (last_check b) <= usec_of (last_check b') <= usec_of t ∧
    (if v : bool then n else 0) + tokens b'
      <= tokens b + (usec_of (last_check b') - usec_of (last_check b)) * rate b / 1000000.
Proof.
  intros Hg Hb Hlc Ht Hfwd Hn Hmul Hsum v b' Hstep.
  destruct (add_new_tokens_in_window t b Hg Hb Hlc Ht Hfwd Hmul Hsum)
    as (Hb1 & Hr1 & Hlc1 & Hu1 & Hgain).
  rewrite process_unfold in Hstep.
  revert Hb1 Hr1 Hlc1 Hu1 Hgain Hstep.
  generalize (throttle_ratelimit_add_new_tokens t b). intros b1 Hb1 Hr1 Hlc1 Hu1 Hgain Hstep.
  destruct (try_consume_in_range b1 n Hb1) as (Hcons & Hpos & Hr2 & Hlc2).
  { rewrite Hr1. exact Hg. }
  { exact Hn. }
  rewrite Hstep in Hcons, Hpos, Hr2, Hlc2. cbn [fst snd] in Hcons, Hpos, Hr2, Hlc2.
  destruct Hb1 as [Hlo1 Hhi1].
  split; [unfold token_bounds; destruct v; lia |].
  split; [congruence |].
  rewrite Hlc2. split; [exact Hlc1 |]. split; [exact Hu1 |]. lia.
Qed.

(** The invariant of a window of requests. *)
Lemma window_invariant (reqs : list (GTimeVal * Z)) : ∀ b prev,
  in_gint (rate b) → token_bounds b → time_ok (last_check b) →
  usec_of (last_check b) <= prev → window_ok prev reqs →
  (last_usec prev reqs - usec_of (last_check b)) * rate b <= max_glong →
  (last_usec prev reqs - usec_of (last_check b)) * rate b / 1000000 + rate b
    <= max_gint →
  accepted_total reqs (fst (process_all b reqs)) + tokens (snd (process_all b reqs))
    <= tokens b
       + (usec_of (last_check (snd (process_all b reqs))) - usec_of (last_check b))
         * rate b / 1000000 ∧
  0 <= tokens (snd (process_all b reqs)) ∧
  usec_of (last_check (snd (process_all b reqs))) <= last_usec prev reqs.
Proof.
  induction reqs as [| [t n] rest IH]; intros b prev Hg Hb Hlc Hprev Hok Hmul Hsum.
  - cbn [process_all accepted_total fst snd last_usec].
    rewrite Z.sub_diag, Z.mul_0_l, Zdiv_0_l. destruct Hb. repeat split; lia.
  - destruct Hok as (Ht & Hfwd & Hn & Hrest).
    change (last_usec prev ((t, n) :: rest)) with (last_usec (usec_of t) rest) in *.
    pose proof (last_usec_ge rest _ Hrest) as Hend.
    assert (Hr : 0 <= rate b) by (destruct Hb; lia).
    assert (Hmono : ∀ x y, x <= y → x * rate b <= y * rate b)
      by (intros x y Hxy; apply Z.mul_le_mono_nonneg_r; assumption).
    assert (Hdiv : ∀ x y, x <= y → x * rate b / 1000000 <= y * rate b / 1000000)
      by (intros x y Hxy; apply Z.div_le_mono; [lia | apply Hmono, Hxy]).
    destruct (throttle_ratelimit_process_new_logs t b n) as [v b'] eqn:Hstep.
    destruct (process_in_window t b n Hg Hb Hlc Ht) with (v := v) (b' := b')
      as (Hb' & Hr' & Hlc' & Hu' & Hgain).
    { lia. }
    { exact Hn. }
    { pose proof (Hmono (usec_of t - usec_of (last_check b))
                        (last_usec (usec_of t) rest - usec_of (last_check b))). lia. }
    { pose proof (Hdiv (usec_of t - usec_of (last_check b))
                       (last_usec (usec_of t) rest - usec_of (last_check b))). lia. }
    { exact Hstep. }
    rewrite (process_all_step _ _ _ rest _ _ Hstep). cbn [fst snd accepted_total].
    destruct (IH b' (usec_of t)) as (Hacc & Hfin & Hlast).
    { rewrite Hr'. exact Hg. }
    { exact Hb'. }
    { exact Hlc'. }
    { lia. }
    { exact Hrest. }
    { rewrite Hr'.
      pose proof (Hmono (last_usec (usec_of t) rest - usec_of (last_check b'))
                        (last_usec (usec_of t) rest - usec_of (last_check b))). lia. }
    { rewrite Hr'.
      pose proof (Hdiv (last_usec (usec_of t) rest - usec_of (last_check b'))
                       (last_usec (usec_of t) rest - usec_of (last_check b))). lia. }
    rewrite Hr' in Hacc.
    split; [| split; [exact Hfin | exact Hlast]].
    pose proof (div_add_le
                  ((usec_of (last_check b') - usec_of (last_check b)) * rate b)
                  ((usec_of (last_check (snd (process_all b' rest)))
                    - usec_of (last_check b')) * rate b)
                  1000000 ltac:(lia)) as Hadd.
    replace ((usec_of (last_check b') - usec_of (last_check b)) * rate b
             + (usec_of (last_check (snd (process_all b' rest)))
                - usec_of (last_check b')) * rate b)
      with ((usec_of (last_check (snd (process_all b' rest)))
             - usec_of (last_check b)) * rate b) in Hadd by lia.
    lia.
Qed.

(** X21: the guarantee of the throttle over a window of time.  For
    requests whose clock readings do not go back and whose sizes are not
    negative, on a bucket within its bounds and as long as the arithmetic
    stays in the C types, the messages accepted are at most the tokens at
    the start plus the rate times the length of the window:
    [tokens + floor(W * rate / 1000000)] for a window of [W]
    microseconds. *)
Theorem throttle_window_bound (reqs : list (GTimeVal * Z)) b
  (Hgint : in_gint (rate b))
  (Hbounds : token_bounds b)
  (Hstart : time_ok (last_check b))
  (Hreqs : window_ok (usec_of (last_check b)) reqs)
  (Hmul : (last_usec (usec_of (last_check b)) reqs - usec_of (last_check b)) * rate b
          <= max_glong)
  (Hsum : (last_usec (usec_of (last_check b)) reqs - usec_of (last_check b)) * rate b
          / 1000000 + rate b <= max_gint) :
  accepted_total reqs (fst (process_all b reqs))
    <= tokens b
       + (last_usec (usec_of (last_check b)) reqs - usec_of (last_check b)) * rate b
         / 1000000.
Proof.
  destruct (window_invariant reqs b (usec_of (last_check b))
              Hgint Hbounds Hstart (Z.le_refl _) Hreqs Hmul Hsum)
    as (Hacc & Hfin & Hlast).
  assert (Hr : 0 <= rate b) by (destruct Hbounds; lia).
  assert (Hdiv : (usec_of (last_check (snd (process_all b reqs)))
                  - usec_of (last_check b)) * rate b / 1000000
                 <= (last_usec (usec_of (last_check b)) reqs
                     - usec_of (last_check b)) * rate b / 1000000).
  { apply Z.div_le_mono; [lia |]. apply Z.mul_le_mono_nonneg_r; lia. }
  lia.
Qed.

Lemma throttle_window_bound_witness :
  let t0 := {| tv_sec := 1700000000; tv_usec := 0 |} in
  let t1 := {| tv_sec := 1700000000; tv_usec := 500000 |} in
  let t2 := {| tv_sec := 1700000001; tv_usec := 0 |} in
  let b := throttle_ratelimit_new t0 10 in
  let reqs := [(t0, 10); (t1, 5); (t2, 6); (t2, 5)] in
  fst (process_all b reqs) = [true; true; false; true] ∧
  accepted_total reqs (fst (process_all b reqs)) <= 10 + 10.
Proof.
  cbv zeta.
  set (t0 := {| tv_sec := 1700000000; tv_usec := 0 |}).
  set (t1 := {| tv_sec := 1700000000; tv_usec := 500000 |}).
  set (t2 := {| tv_sec := 1700000001; tv_usec := 0 |}).
  set (b := throttle_ratelimit_new t0 10).
  set (reqs := [(t0, 10); (t1, 5); (t2, 6); (t2, 5)]).
  assert (H1 : in_gint (rate b)) by (apply in_gint_intro; cbn; lia).
  assert (H2 : token_bounds b) by (unfold token_bounds; cbn; lia).
  assert (H3 : time_ok (last_check b)) by (unfold time_ok; cbn; lia).
  assert (H4 : window_ok (usec_of (last_check b)) reqs).
  { cbn [window_ok reqs]. unfold time_ok, usec_of. cbn. repeat split; lia. }
  assert (H5 : (last_usec (usec_of (last_check b)) reqs - usec_of (last_check b)) * rate b
               <= max_glong) by (vm_compute; discriminate).
  assert (H6 : (last_usec (usec_of (last_check b)) reqs - usec_of (last_check b)) * rate b
               / 1000000 + rate b <= max_gint) by (vm_compute; discriminate).
  split; [vm_compute; reflexivity |].
  pose proof (throttle_window_bound reqs b H1 H2 H3 H4 H5 H6) as Hbound.
  assert (Heq : tokens b
                + (last_usec (usec_of (last_check b)) reqs - usec_of (last_check b))
                  * rate b / 1000000 = 10 + 10) by (vm_compute; reflexivity).
  rewrite Heq in Hbound. exact Hbound.
Defined.

End ThrottleWindow.

(** * Evaluations in sequence *)

Section Sequences.

Implicit Types (self : FT.FilterThrottle) (h : ThrottleHeap).

Lemma default_Some_eq {A : Type} (d x : A) : default d (Some x) = x.
Proof. reflexivity. Qed.

(** One evaluation on a well-formed table: the outcome, the bucket stored
    under the key, and the table is well formed again. *)
Lemma filter_throttle_eval_stores t_new t_fill self h (msgs : list LogMessage)
    (num_msg : Z) (k : string) :
  table_wf self h → filter_throttle_key self msgs num_msg = Some k →
  ∃ self' h',
    filter_throttle_eval t_new t_fill self h msgs num_msg
      = Some (fst (throttle_ratelimit_process_new_logs t_fill
                     (default (throttle_ratelimit_new t_new (FT.rate self))
                        (bucket_of self h k)) num_msg),
              self', h') ∧
    bucket_of self' h' k
      = Some (snd (throttle_ratelimit_process_new_logs t_fill
                     (default (throttle_ratelimit_new t_new (FT.rate self))
                        (bucket_of self h k)) num_msg)) ∧
    table_wf self' h' ∧
    FT.key_handle self' = FT.key_handle self ∧
    FT.rate self' = FT.rate self.
Proof.
  intros Hwf Hkey.
  pose proof (filter_throttle_key_c_string self msgs num_msg k Hkey) as Hc.
  destruct (filter_throttle_lookup t_new self h k) as [[rl self1] h1] eqn:Hlk.
  destruct (filter_throttle_lookup_cases t_new self h k Hc Hwf rl self1 h1 Hlk)
    as (Hb0 & Hrate & Hhandle & _ & _).
  destruct (filter_throttle_lookup_spec t_new self h k Hc Hwf rl self1 h1 Hlk)
    as (Hwf1 & Hk & Hsome & _).
  eexists self1, _. split.
  { apply (filter_throttle_eval_run _ _ _ _ _ _ _ Hkey _ _ _ Hlk _ Hb0). }
  split.
  { unfold bucket_of, g_hash_table_lookup. rewrite Hc, Hk.
    cbn [mbind option_bind buckets]. apply lookup_insert_eq. }
  split; [apply table_wf_update; assumption |].
  split; assumption.
Qed.

(** X22: the table keeps the state of a key between evaluations: of two
    evaluations in a row whose batches have the same key, that is, whose
    last records have values that are the same C string, the second one
    applies [process] to the very bucket that the first one stored (it
    neither starts from a new bucket nor from a copy taken earlier). *)
Theorem eval_twice_same_key t_new1 t_fill1 t_new2 t_fill2 self h
    (msgs1 msgs2 : list LogMessage) (n1 n2 : Z) (k : string)
  (Hwf : table_wf self h)
  (Hkey1 : filter_throttle_key self msgs1 n1 = Some k)
  (Hkey2 : filter_throttle_key self msgs2 n2 = Some k) :
  ∃ v1 self1 h1 b1 self2 h2,
    filter_throttle_eval t_new1 t_fill1 self h msgs1 n1 = Some (v1, self1, h1) ∧
    bucket_of self1 h1 k = Some b1 ∧
    filter_throttle_eval t_new2 t_fill2 self1 h1 msgs2 n2
      = Some (fst (throttle_ratelimit_process_new_logs t_fill2 b1 n2), self2, h2) ∧
    bucket_of self2 h2 k
      = Some (snd (throttle_ratelimit_process_new_logs t_fill2 b1 n2)).
Proof.
  destruct (filter_throttle_eval_stores t_new1 t_fill1 self h msgs1 n1 k Hwf Hkey1)
    as (self1 & h1 & Hev1 & Hb1 & Hwf1 & Hhandle & _).
  assert (Hkey2' : filter_throttle_key self1 msgs2 n2 = Some k).
  { unfold filter_throttle_key in *. rewrite Hhandle. exact Hkey2. }
  destruct (filter_throttle_eval_stores t_new2 t_fill2 self1 h1 msgs2 n2 k Hwf1 Hkey2')
    as (self2 & h2 & Hev2 & Hb2 & _).
  rewrite Hb1, default_Some_eq in Hev2, Hb2.
  exists (fst (throttle_ratelimit_process_new_logs t_fill1
                 (default (throttle_ratelimit_new t_new1 (FT.rate self))
                    (bucket_of self h k)) n1)),
    self1, h1,
    (snd (throttle_ratelimit_process_new_logs t_fill1
            (default (throttle_ratelimit_new t_new1 (FT.rate self))
               (bucket_of self h k)) n1)),
    self2, h2.
  split; [exact Hev1 |]. split; [exact Hb1 |]. split; [exact Hev2 | exact Hb2].
Qed.

Lemma eval_twice_same_key_witness :
  let t := {| tv_sec := 1700000000; tv_usec := 0 |} in
  let self := {| FT.key_handle := 7%N; FT.rate := 5; FT.rate_limits := ∅ |} in
  let h := {| buckets := ∅ |} in
  let m1 := {| nv_values :=
                 {[ 7%N := String "a"%char (String NUL (String "b"%char EmptyString)) ]} |} in
  let m2 := {| nv_values := {[ 7%N := "a"%string ]} |} in
  ∃ self1 h1 self2 h2,
    filter_throttle_eval t t self h [m1] 1 = Some (true, self1, h1) ∧
    bucket_of self1 h1 "a"%string = Some {| tokens := 4; rate := 5; last_check := t |} ∧
    filter_throttle_eval t t self1 h1 [m2; m2; m2] 3 = Some (true, self2, h2) ∧
    bucket_of self2 h2 "a"%string = Some {| tokens := 1; rate := 5; last_check := t |}.
Proof.
  cbv zeta.
  set (t := {| tv_sec := 1700000000; tv_usec := 0 |}).
  set (self := {| FT.key_handle := 7%N; FT.rate := 5; FT.rate_limits := ∅ |}).
  set (h := {| buckets := ∅ |}).
  set (m1 := {| nv_values :=
                  {[ 7%N := String "a"%char (String NUL (String "b"%char EmptyString)) ]} |}).
  set (m2 := {| nv_values := {[ 7%N := "a"%string ]} |}).
  assert (Hwf : table_wf self h).
  { repeat split; cbn.
    - intros k l Hk. rewrite lookup_empty in Hk. discriminate.
    - intros k1 k2 l Hk. rewrite lookup_empty in Hk. discriminate.
    - intros l [b Hb]. rewrite lookup_empty in Hb. discriminate. }
  assert (Hkey1 : filter_throttle_key self [m1] 1 = Some "a"%string)
    by (vm_compute; reflexivity).
  assert (Hkey2 : filter_throttle_key self [m2; m2; m2] 3 = Some "a"%string)
    by (vm_compute; reflexivity).
  destruct (eval_twice_same_key t t t t self h [m1] [m2; m2; m2] 1 3 "a"%string
              Hwf Hkey1 Hkey2)
    as (v1 & self1 & h1 & b1 & self2 & h2 & Hev1 & Hb1 & Hev2 & Hb2).
  assert (Hv : option_map (λ r, fst (fst r)) (filter_throttle_eval t t self h [m1] 1)
               = Some true) by (vm_compute; reflexivity).
  assert (Hb : (r ← filter_throttle_eval t t self h [m1] 1;
                bucket_of (snd (fst r)) (snd r) "a"%string)
               = Some {| tokens := 4; rate := 5; last_check := t |})
    by (vm_compute; reflexivity).
  rewrite Hev1 in Hv, Hb. cbn [option_map mbind option_bind fst snd] in Hv, Hb.
  assert (Hv1 : v1 = true) by congruence.
  assert (Hb1' : b1 = {| tokens := 4; rate := 5; last_check := t |}) by congruence.
  subst v1 b1.
  exists self1, h1, self2, h2.
  split; [exact Hev1 |]. split; [exact Hb1 |].
  split.
  - rewrite Hev2. vm_compute. reflexivity.
  - rewrite Hb2. vm_compute. reflexivity.
Defined.

End Sequences.
